(** * Roman numeral addition by string rewriting (roman_adding.py)

    A shallow embedding of [roman_adding.py]: Python strings are lists of
    characters, the two lookup tables are association lists in insertion
    order, [str.replace], [in], [str.index] and [sorted] are written out,
    and the [while True] loop of [fold_digits] is a fuelled loop together
    with the proof that the fuel [S (length number)] always suffices. *)

From Stdlib Require Import Ascii String List Arith Bool Lia.
From Stdlib Require Import Permutation Sorted.
Import ListNotations.

(** ** Python strings *)

Definition str := list ascii.

Definition py (s : string) : str := list_ascii_of_string s.
Arguments py s%_string.

Module PyStr.

(** [s.startswith(old)]. *)
Fixpoint startswith (old s : str) : bool :=
  match old, s with
  | [], _ => true
  | _ :: _, [] => false
  | a :: o, c :: t => Ascii.eqb a c && startswith o t
  end.

(** [sub in s] for two strings: [sub] occurs as a substring of [s]. *)
Fixpoint contains (sub s : str) : bool :=
  startswith sub s ||
  match s with
  | [] => false
  | _ :: t => contains sub t
  end.

(** [s.replace(old, new)]: every non-overlapping occurrence of [old],
    scanning from the left, is replaced by [new].  [skip] counts the
    characters of a matched occurrence that are still to be dropped.  An
    empty [old] matches before every character and at the end, as in
    Python. *)
Fixpoint replace_skip (old new : str) (skip : nat) (s : str) : str :=
  match s with
  | [] => match old with [] => new | _ :: _ => [] end
  | c :: t =>
      match skip with
      | S k => replace_skip old new k t
      | O =>
          if startswith old s then
            match old with
            | [] => new ++ c :: replace_skip old new 0 t
            | _ :: o => new ++ replace_skip old new (length o) t
            end
          else c :: replace_skip old new 0 t
      end
  end.

Definition replace (old new s : str) : str := replace_skip old new 0 s.

(** [s.index(x)] for a one-character [x]: [None] stands for the
    [ValueError] Python raises when [x] does not occur. *)
Fixpoint index (s : str) (x : ascii) : option nat :=
  match s with
  | [] => None
  | c :: t => if Ascii.eqb c x then Some 0 else option_map S (index t x)
  end.

(** [x in s] for a one-character [x]. *)
Definition char_in (x : ascii) (s : str) : bool := existsb (Ascii.eqb x) s.

Fixpoint eqb (s t : str) : bool :=
  match s, t with
  | [], [] => true
  | a :: s', b :: t' => Ascii.eqb a b && eqb s' t'
  | _, _ => false
  end.

End PyStr.

(** ** Exceptions

    Both exceptions the program can meet are Python [ValueError]s: the one
    [check_roman] raises, which carries the offending token in its message,
    and the one [str.index] raises inside the sort key. *)

Inductive exn : Type :=
| InvalidNumeral (token : str)
| SubstringNotFound.

Definition result (A : Type) : Type := (exn + A)%type.

Definition ret {A : Type} (a : A) : result A := inr a.
Definition raise {A : Type} (e : exn) : result A := inl e.

Definition bind {A B : Type} (m : result A) (k : A -> result B) : result B :=
  match m with
  | inl e => inl e
  | inr a => k a
  end.

Notation "x <- m ;; k" := (bind m (fun x => k))
  (at level 61, m at next level, right associativity).

(** ** The module's tables *)

Definition ROMAN_DIGITS : str := py "IVXLCDM".

(** [ADDITIVE_MAP], an [OrderedDict]: subtractive pair to additive run. *)
Definition ADDITIVE_MAP : list (str * str) :=
  [ (py "CM", py "DCCCC");
    (py "CD", py "CCCC");
    (py "XC", py "LXXXX");
    (py "XL", py "XXXX");
    (py "IX", py "VIIII");
    (py "IV", py "IIII") ].

(** [REDUCTION_MAP], a [dict] iterated in insertion order. *)
Definition REDUCTION_MAP : list (str * str) :=
  [ (py "IIIII", py "V");
    (py "VIV", py "IX");
    (py "VV", py "X");
    (py "XXXXX", py "L");
    (py "LXL", py "XC");
    (py "LL", py "C");
    (py "CCCCC", py "D");
    (py "DCD", py "CM");
    (py "DD", py "M") ].

(** ** The functions of the module *)

(** [if old in number: number = number.replace(old, new)], the body shared
    by the three table loops. *)
Definition replace_if_in (old new number : str) : str :=
  if PyStr.contains old number then PyStr.replace old new number else number.

Definition check_roman (s : str) : result unit :=
  if forallb (fun x => PyStr.char_in x ROMAN_DIGITS) s
  then ret tt
  else raise (InvalidNumeral s).

Definition replace_subtractive (number : str) : str :=
  fold_left (fun number '(sub, add) => replace_if_in sub add number)
            ADDITIVE_MAP number.

Definition replace_additive (number : str) : str :=
  fold_left (fun number '(key, value) => replace_if_in value key number)
            ADDITIVE_MAP number.

(** One execution of the [for] loop inside [fold_digits]. *)
Definition fold_pass (number : str) : str :=
  fold_left (fun number '(digits, reduction) =>
               replace_if_in digits reduction number)
            REDUCTION_MAP number.

(** The [while True] loop, [fuel] iterations at most; [None] is "still
    running". *)
Fixpoint fold_loop (fuel : nat) (number : str) : option str :=
  match fuel with
  | O => None
  | S fuel' =>
      let number_before_fold := number in
      let number := fold_pass number in
      if PyStr.eqb number_before_fold number
      then Some number
      else fold_loop fuel' number
  end.

(** [fold_digits]: the loop run with the fuel [fold_loop_terminates] shows
    to be enough. *)
Definition fold_digits (number : str) : str :=
  match fold_loop (S (length number)) number with
  | Some r => r
  | None => number
  end.

(** The sort of [add]: [sorted(s, key=lambda x: ROMAN_DIGITS.index(x),
    reverse=True)].  Python computes every key first ([decorate]), then
    sorts stably; with [reverse=True] elements of equal key keep their
    original order.  The stable result is unique, so a stable insertion
    sort gives it. *)
Fixpoint decorate (s : str) : result (list (nat * ascii)) :=
  match s with
  | [] => ret []
  | x :: t =>
      match PyStr.index ROMAN_DIGITS x with
      | None => raise SubstringNotFound
      | Some k => ks <- decorate t ;; ret ((k, x) :: ks)
      end
  end.

Fixpoint insert_desc (p : nat * ascii) (l : list (nat * ascii))
  : list (nat * ascii) :=
  match l with
  | [] => [p]
  | q :: t => if fst p <? fst q then q :: insert_desc p t else p :: l
  end.

Definition sort_desc (l : list (nat * ascii)) : list (nat * ascii) :=
  fold_right insert_desc [] l.

Definition sorted_by_index_reverse (s : str) : result str :=
  ks <- decorate s ;; ret (map snd (sort_desc ks)).

(** The validation loop [for n in numbers: check_roman(n)]. *)
Fixpoint check_all (numbers : list str) : result unit :=
  match numbers with
  | [] => ret tt
  | n :: rest => _ <- check_roman n ;; check_all rest
  end.

Definition add (numbers : list str) : result str :=
  _ <- check_all numbers ;;
  let additive_form := map replace_subtractive numbers in
  let additive_sum := concat additive_form in
  sorted_sum <- sorted_by_index_reverse additive_sum ;;
  let reduced_sum := fold_digits sorted_sum in
  ret (replace_additive reduced_sum).

(** ** Notions the statements use *)

(** A token that passes validation: every character is one of the seven
    symbols. *)
Definition roman_token (s : str) : Prop :=
  Forall (fun x => In x ROMAN_DIGITS) s.

(** None of the strings of [patterns] occurs in [s]. *)
Definition no_pattern (patterns : list str) (s : str) : Prop :=
  Forall (fun p => PyStr.contains p s = false) patterns.

Definition no_patternb (patterns : list str) (s : str) : bool :=
  forallb (fun p => negb (PyStr.contains p s)) patterns.

(** The six subtractive pairs and the nine reducible runs, read off the
    tables. *)
Definition SUBTRACTIVE_PAIRS : list str := map fst ADDITIVE_MAP.
Definition REDUCIBLE_RUNS : list str := map fst REDUCTION_MAP.

(** Tidy numerals, after the module's docstring: a decimal digit of the
    number is written with the subtractive pair for 4 and 9 and additively
    otherwise, thousands first; 1 to 3999. *)
Module Tidy.

Definition thousands : list str := [[]; py "M"; py "MM"; py "MMM"].
Definition hundreds : list str :=
  [[]; py "C"; py "CC"; py "CCC"; py "CD";
   py "D"; py "DC"; py "DCC"; py "DCCC"; py "CM"].
Definition tens : list str :=
  [[]; py "X"; py "XX"; py "XXX"; py "XL";
   py "L"; py "LX"; py "LXX"; py "LXXX"; py "XC"].
Definition units : list str :=
  [[]; py "I"; py "II"; py "III"; py "IV";
   py "V"; py "VI"; py "VII"; py "VIII"; py "IX"].

Definition numeral (n : nat) : str :=
  nth (n / 1000) thousands [] ++ nth (n / 100 mod 10) hundreds [] ++
  nth (n / 10 mod 10) tens [] ++ nth (n mod 10) units [].

(** The docstring's weights: I (1), V (5), X (10), L (50), C (100),
    D (500), M (1000). *)
Definition weight (c : ascii) : nat :=
  if Ascii.eqb c "I" then 1 else
  if Ascii.eqb c "V" then 5 else
  if Ascii.eqb c "X" then 10 else
  if Ascii.eqb c "L" then 50 else
  if Ascii.eqb c "C" then 100 else
  if Ascii.eqb c "D" then 500 else
  if Ascii.eqb c "M" then 1000 else 0.

(** The number a numeral stands for: a symbol standing before a larger
    one is subtracted, any other is added. *)
Fixpoint value (s : str) : nat :=
  match s with
  | [] => 0
  | c :: t =>
      match t with
      | [] => weight c
      | d :: _ =>
          if weight c <? weight d then value t - weight c
          else weight c + value t
      end
  end.

Definition in_range (n : nat) : Prop := 1 <= n <= 3999.

End Tidy.

(** Symbol counts: how many of each symbol a string holds.  A string sorted
    by [add] is determined by its counts ([render]), and on such a string
    one pass of [fold_digits] is the carry of a mixed base 5/2 counter
    ([carry]). *)
Record counts : Type := Counts
  { nM : nat; nD : nat; nC : nat; nL : nat; nX : nat; nV : nat; nI : nat }.

Definition blocks (bs : list (ascii * nat)) : str :=
  flat_map (fun '(c, n) => repeat c n) bs.

Definition render (k : counts) : str :=
  blocks [("M"%char, nM k); ("D"%char, nD k); ("C"%char, nC k);
          ("L"%char, nL k); ("X"%char, nX k); ("V"%char, nV k);
          ("I"%char, nI k)].

Definition count_char (a : ascii) (s : str) : nat :=
  length (filter (Ascii.eqb a) s).

Definition count_of (s : str) : counts :=
  Counts (count_char "M" s) (count_char "D" s) (count_char "C" s)
         (count_char "L" s) (count_char "X" s) (count_char "V" s)
         (count_char "I" s).

Definition plus (a b : counts) : counts :=
  Counts (nM a + nM b) (nD a + nD b) (nC a + nC b) (nL a + nL b)
         (nX a + nX b) (nV a + nV b) (nI a + nI b).

Definition carry (k : counts) : counts :=
  let v := nV k + nI k / 5 in
  let x := nX k + v / 2 in
  let l := nL k + x / 5 in
  let c := nC k + l / 2 in
  let d := nD k + c / 5 in
  Counts (nM k + d / 2) (d mod 2) (c mod 5) (l mod 2) (x mod 5) (v mod 2)
         (nI k mod 5).

(** The sum of the weights of the symbols counted. *)
Definition total (k : counts) : nat :=
  1000 * nM k + 500 * nD k + 100 * nC k + 50 * nL k + 10 * nX k +
  5 * nV k + nI k.

(** No carry is pending. *)
Definition normal (k : counts) : Prop :=
  nD k < 2 /\ nC k < 5 /\ nL k < 2 /\ nX k < 5 /\ nV k < 2 /\ nI k < 5.

(** What [add] returns on valid tokens, in terms of counts. *)
Definition add_counts (numbers : list str) : counts :=
  carry (count_of (concat (map replace_subtractive numbers))).

(** The body of a table loop, and a table whose every entry replaces a
    pattern by a shorter string. *)
Definition table_step (number : str) (entry : str * str) : str :=
  let '(old, new) := entry in replace_if_in old new number.

Definition shrinking (tbl : list (str * str)) : Prop :=
  Forall (fun '(old, new) => old <> [] /\ length new < length old) tbl.

(** The sort key as a total function, and a character with its key. *)
Definition rank (x : ascii) : nat :=
  match PyStr.index ROMAN_DIGITS x with
  | Some k => k
  | None => 0
  end.

Definition keyed (x : ascii) : nat * ascii := (rank x, x).

(** ** The command line

    [main(args)], with [args] the arguments after the program name.  What
    [print] writes to standard output is the value returned: the text and a
    newline.  An exception of [add] leaves [main] before anything is
    printed. *)

Definition newline : ascii := "010"%char.

Definition print (s : str) : str := s ++ [newline].

Definition USAGE : str :=
  py "Usage: roman_adding.py <roman-number-1> [...] <roman-number-n>".

Definition main (args : list str) : result str :=
  if length args <=? 1
  then ret (print USAGE)
  else r <- add args ;; ret (print r).

(** ** Further notions the statements use *)

(** The sum of the weights of the symbols of a string, each symbol added,
    none subtracted. *)
Definition weight_sum (s : str) : nat := list_sum (map Tidy.weight s).

(** The six additive runs, the values of [ADDITIVE_MAP]. *)
Definition ADDITIVE_RUNS : list str := map snd ADDITIVE_MAP.

(** [ADDITIVE_MAP] read from value to key, as [replace_additive] does. *)
Definition SUBTRACTIVE_MAP : list (str * str) :=
  map (fun '(key, value) => (value, key)) ADDITIVE_MAP.

(** A table whose every entry replaces a pattern by a longer string. *)
Definition growing (tbl : list (str * str)) : Prop :=
  Forall (fun '(old, new) => old <> [] /\ length old < length new) tbl.

(** A table whose every entry keeps the sum of the weights. *)
Definition weight_keeping (tbl : list (str * str)) : Prop :=
  Forall (fun '(old, new) => old <> [] /\ weight_sum old = weight_sum new)
         tbl.

(** The order the sort of [add] produces: the index in [ROMAN_DIGITS] never
    grows from left to right. *)
Definition descending (s : str) : Prop :=
  StronglySorted (fun a b => rank b <= rank a) s.

(** What [add] returns for the weight sum [n]: one [M] for each thousand,
    then the tidy numeral of the rest. *)
Definition long_numeral (n : nat) : str :=
  repeat "M"%char (n / 1000) ++ Tidy.numeral (n mod 1000).

(** * Properties *)

(** ** Python string operations *)

Module PyStrFacts.
Import PyStr.

Lemma eqb_eq (s t : str) : eqb s t = true <-> s = t.
Proof.
  revert t; induction s as [|a s IH]; intros [|b t]; simpl;
    try (split; [discriminate | congruence]); try tauto.
  rewrite andb_true_iff, Ascii.eqb_eq, IH. split.
  - intros [-> ->]; reflexivity.
  - intros [= -> ->]; auto.
Qed.

Lemma eqb_refl (s : str) : eqb s s = true.
Proof. apply eqb_eq; reflexivity. Qed.

Lemma eqb_neq (s t : str) : eqb s t = false <-> s <> t.
Proof.
  rewrite <- eqb_eq. destruct (eqb s t); split; congruence.
Qed.

Lemma startswith_app (old r : str) : startswith old (old ++ r) = true.
Proof.
  induction old as [|a o IH]; simpl; [reflexivity|].
  now rewrite Ascii.eqb_refl.
Qed.

Lemma startswith_true (old s : str) :
  startswith old s = true -> s = old ++ skipn (length old) s.
Proof.
  revert s; induction old as [|a o IH]; intros [|c t]; simpl;
    try reflexivity; try discriminate.
  rewrite andb_true_iff, Ascii.eqb_eq. intros [-> H].
  f_equal. now apply IH.
Qed.

Lemma replace_skip_skipn (a : ascii) (o new : str) (k : nat) (s : str) :
  replace_skip (a :: o) new k s = replace (a :: o) new (skipn k s).
Proof.
  revert k; induction s as [|c t IH]; intros [|k]; try reflexivity.
  simpl skipn. rewrite <- IH. reflexivity.
Qed.

(** The equation of [replace] for a non-empty pattern. *)
Lemma replace_cons (a : ascii) (o new : str) (c : ascii) (t : str) :
  replace (a :: o) new (c :: t) =
  if startswith (a :: o) (c :: t)
  then new ++ replace (a :: o) new (skipn (length o) t)
  else c :: replace (a :: o) new t.
Proof.
  unfold replace at 1. cbn [replace_skip].
  now rewrite replace_skip_skipn.
Qed.

Lemma replace_nil (a : ascii) (o new : str) : replace (a :: o) new [] = [].
Proof. reflexivity. Qed.

(** An occurrence at the head is replaced and the scan resumes after it. *)
Lemma replace_match (a : ascii) (o new r : str) :
  replace (a :: o) new ((a :: o) ++ r) = new ++ replace (a :: o) new r.
Proof.
  cbn [app]. rewrite replace_cons.
  change (a :: o ++ r) with ((a :: o) ++ r).
  rewrite startswith_app. f_equal. f_equal.
  induction o as [|b o IH]; simpl; auto.
Qed.

Lemma replace_absent (a : ascii) (o new s : str) :
  contains (a :: o) s = false -> replace (a :: o) new s = s.
Proof.
  induction s as [|c t IH]; [reflexivity|].
  cbn [contains]. rewrite orb_false_iff. intros [Hs Ht].
  rewrite replace_cons, Hs, IH; auto.
Qed.

(** The guard [if old in number] changes nothing: [replace] already
    returns the string itself when the pattern is absent. *)
Lemma replace_if_in_replace (a : ascii) (o new s : str) :
  replace_if_in (a :: o) new s = replace (a :: o) new s.
Proof.
  unfold replace_if_in. destruct (contains (a :: o) s) eqn:E; auto.
  now rewrite replace_absent.
Qed.

Lemma replace_skip_Forall (P : ascii -> Prop) (old new : str) :
  Forall P new ->
  forall s k, Forall P s -> Forall P (replace_skip old new k s).
Proof.
  intros Hn. induction s as [|c t IH]; intros k Hs.
  - destruct old; simpl; auto.
  - inversion Hs; subst. cbn [replace_skip]. destruct k as [|k]; auto.
    destruct (startswith old (c :: t)).
    + destruct old; apply Forall_app; split; auto.
    + constructor; auto.
Qed.

Lemma replace_if_in_Forall (P : ascii -> Prop) (old new s : str) :
  Forall P new -> Forall P s -> Forall P (replace_if_in old new s).
Proof.
  intros Hn Hs. unfold replace_if_in.
  destruct (contains old s); auto.
  now apply replace_skip_Forall.
Qed.

(** Lengths: a replacement by a shorter string shortens, strictly when
    the pattern occurs. *)
Lemma replace_length_le (a : ascii) (o new : str) :
  length new <= length (a :: o) ->
  forall s, length (replace (a :: o) new s) <= length s.
Proof.
  intros Hn s.
  induction s as [s IH] using (induction_ltof1 _ (@length ascii)).
  unfold ltof in IH. destruct s as [|c t]; [auto|].
  rewrite replace_cons. destruct (startswith (a :: o) (c :: t)) eqn:E.
  - apply startswith_true in E. cbn [length skipn] in E.
    assert (L : length (c :: t) =
                length (a :: o) + length (skipn (length o) t)).
    { rewrite E at 1. now rewrite length_app. }
    rewrite length_app.
    specialize (IH (skipn (length o) t)).
    cbn [length] in *. lia.
  - cbn [length]. specialize (IH t). cbn [length] in IH. lia.
Qed.

Lemma replace_length_lt (a : ascii) (o new : str) :
  length new < length (a :: o) ->
  forall s, contains (a :: o) s = true ->
            length (replace (a :: o) new s) < length s.
Proof.
  intros Hn. induction s as [|c t IH]; [discriminate|].
  cbn [contains]. intros H. rewrite replace_cons.
  destruct (startswith (a :: o) (c :: t)) eqn:E.
  - apply startswith_true in E. cbn [length skipn] in E.
    assert (L : length (c :: t) =
                length (a :: o) + length (skipn (length o) t)).
    { rewrite E at 1. now rewrite length_app. }
    rewrite length_app.
    pose proof (@replace_length_le a o new (Nat.lt_le_incl _ _ Hn)
                  (skipn (length o) t)).
    cbn [length] in *. lia.
  - cbn [orb] in H. specialize (IH H). cbn [length]. lia.
Qed.

End PyStrFacts.

(** ** A table loop whose every entry shortens the string *)

Section TableLoop.

Import PyStr PyStrFacts.

Lemma replace_if_in_shrinks (old new s : str) :
  old <> [] -> length new < length old ->
  (contains old s = false /\ replace_if_in old new s = s) \/
  (contains old s = true /\ length (replace_if_in old new s) < length s).
Proof.
  intros Ho Hn. unfold replace_if_in.
  destruct old as [|a o]; [congruence|].
  destruct (contains (a :: o) s) eqn:E; [right | left]; split; auto.
  now apply replace_length_lt.
Qed.

Lemma table_pass_length (tbl : list (str * str)) :
  shrinking tbl ->
  forall s, length (fold_left table_step tbl s) <= length s.
Proof.
  induction 1 as [|[old new] tbl [Ho Hn] _ IH]; intros s; [auto|].
  cbn [fold_left table_step].
  specialize (IH (replace_if_in old new s)).
  destruct (replace_if_in_shrinks old new s Ho Hn) as [[_ E]|[_ L]].
  - rewrite E in *. exact IH.
  - lia.
Qed.

Lemma table_pass_same_length (tbl : list (str * str)) :
  shrinking tbl ->
  forall s, length (fold_left table_step tbl s) = length s ->
            no_pattern (map fst tbl) s /\ fold_left table_step tbl s = s.
Proof.
  induction 1 as [|[old new] tbl [Ho Hn] Hs IH]; intros s.
  - split; [constructor | reflexivity].
  - cbn [fold_left table_step map fst]. intros L.
    pose proof (table_pass_length tbl Hs (replace_if_in old new s)) as Le.
    destruct (replace_if_in_shrinks old new s Ho Hn) as [[C E]|[_ Lt]].
    + rewrite E in *. destruct (IH s L) as [N F].
      split; [constructor; assumption | assumption].
    + lia.
Qed.

End TableLoop.

(** ** The loop of [fold_digits] *)

Section FoldLoop.

Import PyStr PyStrFacts.

Lemma fold_pass_table (s : str) :
  fold_pass s = fold_left table_step REDUCTION_MAP s.
Proof. reflexivity. Qed.

Lemma REDUCTION_MAP_shrinking : shrinking REDUCTION_MAP.
Proof.
  unfold shrinking, REDUCTION_MAP.
  repeat constructor; try discriminate; simpl; lia.
Qed.

Lemma fold_pass_length (s : str) : length (fold_pass s) <= length s.
Proof. apply (table_pass_length _ REDUCTION_MAP_shrinking). Qed.

Lemma fold_pass_shortens (s : str) :
  fold_pass s = s \/ length (fold_pass s) < length s.
Proof.
  pose proof (fold_pass_length s) as Le.
  destruct (Nat.eq_dec (length (fold_pass s)) (length s)) as [E|N]; [|lia].
  left. now apply (table_pass_same_length _ REDUCTION_MAP_shrinking).
Qed.

Lemma fold_pass_fixed (s : str) :
  fold_pass s = s -> no_pattern REDUCIBLE_RUNS s.
Proof.
  intros E.
  apply (table_pass_same_length _ REDUCTION_MAP_shrinking).
  rewrite <- fold_pass_table. now rewrite E.
Qed.

Lemma fold_loop_enough (fuel : nat) :
  forall s, length s < fuel ->
            exists r, fold_loop fuel s = Some r /\ fold_pass r = r.
Proof.
  induction fuel as [|fuel IH]; intros s L; [lia|].
  cbn [fold_loop]. destruct (eqb s (fold_pass s)) eqn:E.
  - apply eqb_eq in E. exists (fold_pass s). split; auto. now rewrite <- E.
  - apply eqb_neq in E.
    destruct (fold_pass_shortens s) as [F|Lt]; [congruence|].
    apply IH. lia.
Qed.

Lemma fold_loop_more (fuel : nat) :
  forall s r, fold_loop fuel s = Some r ->
              forall fuel', fuel <= fuel' -> fold_loop fuel' s = Some r.
Proof.
  induction fuel as [|fuel IH]; intros s r H fuel' Le; [discriminate|].
  destruct fuel' as [|fuel']; [lia|].
  cbn [fold_loop] in *. destruct (eqb s (fold_pass s)); auto.
  apply IH with (1 := H). lia.
Qed.

(** Any fuel above the length of the string gives the result of
    [fold_digits]. *)
Lemma fold_loop_terminates (s : str) (fuel : nat) :
  length s < fuel -> fold_loop fuel s = Some (fold_digits s).
Proof.
  intros L. unfold fold_digits.
  destruct (fold_loop_enough (S (length s)) s) as [r [H _]]; [lia|].
  rewrite H. apply fold_loop_more with (1 := H). lia.
Qed.

Lemma fold_digits_fixed (s : str) : fold_pass (fold_digits s) = fold_digits s.
Proof.
  destruct (fold_loop_enough (S (length s)) s) as [r [H F]]; [lia|].
  unfold fold_digits. now rewrite H.
Qed.

(** The loop, as an equation on [fold_digits]. *)
Lemma fold_digits_unfold (s : str) :
  fold_digits s =
  if eqb s (fold_pass s) then s else fold_digits (fold_pass s).
Proof.
  pose proof (fold_loop_terminates s (S (length s)) (Nat.lt_succ_diag_r _))
    as H.
  cbn [fold_loop] in H. destruct (eqb s (fold_pass s)) eqn:E.
  - apply eqb_eq in E. rewrite <- E in H. congruence.
  - apply eqb_neq in E.
    destruct (fold_pass_shortens s) as [F|Lt]; [congruence|].
    rewrite (fold_loop_terminates (fold_pass s) (length s) Lt) in H.
    congruence.
Qed.

Lemma fold_digits_of_pass (s : str) :
  fold_pass (fold_pass s) = fold_pass s -> fold_digits s = fold_pass s.
Proof.
  intros F. rewrite fold_digits_unfold.
  destruct (eqb s (fold_pass s)) eqn:E.
  - now apply eqb_eq in E.
  - rewrite fold_digits_unfold. now rewrite F, eqb_refl.
Qed.

End FoldLoop.

(** ** Validation *)

Section Validation.

Lemma char_in_In (x : ascii) (s : str) :
  PyStr.char_in x s = true <-> In x s.
Proof.
  unfold PyStr.char_in. rewrite existsb_exists. split.
  - intros [y [H E]]. apply Ascii.eqb_eq in E. now subst.
  - intros H. exists x. split; [assumption | apply Ascii.eqb_refl].
Qed.

Lemma forallb_roman (s : str) :
  forallb (fun x => PyStr.char_in x ROMAN_DIGITS) s = true <-> roman_token s.
Proof.
  unfold roman_token. rewrite forallb_forall, Forall_forall.
  split; intros H x Hx; apply char_in_In; auto.
Qed.

Lemma check_roman_ok (s : str) : check_roman s = inr tt <-> roman_token s.
Proof.
  unfold check_roman. rewrite <- forallb_roman.
  destruct (forallb _ s); cbv [ret raise]; split; congruence.
Qed.

Lemma check_roman_raise (s : str) (e : exn) :
  check_roman s = inl e -> e = InvalidNumeral s /\ ~ roman_token s.
Proof.
  unfold check_roman. rewrite <- forallb_roman.
  destruct (forallb _ s); cbv [ret raise]; intros [= <-].
  split; [reflexivity | discriminate].
Qed.

Lemma check_roman_cases (s : str) :
  (check_roman s = inr tt /\ roman_token s) \/
  (check_roman s = inl (InvalidNumeral s) /\ ~ roman_token s).
Proof.
  destruct (check_roman s) as [e|[]] eqn:E.
  - right. apply check_roman_raise in E as [-> N]. auto.
  - left. split; [reflexivity | now apply check_roman_ok].
Qed.

Lemma check_all_ok (numbers : list str) :
  check_all numbers = inr tt <-> Forall roman_token numbers.
Proof.
  induction numbers as [|n rest IH]; cbn [check_all bind].
  - split; [constructor | reflexivity].
  - destruct (check_roman_cases n) as [[E R]|[E N]]; rewrite E.
    + rewrite IH. split; [now constructor | now inversion 1].
    + split; [discriminate | inversion 1; contradiction].
Qed.

(** The loop stops at the first token that fails, and raises for it. *)
Lemma check_all_raise (numbers : list str) (e : exn) :
  check_all numbers = inl e ->
  exists pre t post,
    numbers = pre ++ t :: post /\ Forall roman_token pre /\
    ~ roman_token t /\ e = InvalidNumeral t.
Proof.
  induction numbers as [|n rest IH]; cbn [check_all bind]; [discriminate|].
  destruct (check_roman_cases n) as [[E R]|[E N]]; rewrite E.
  - intros H. destruct (IH H) as (pre & t & post & -> & Hp & Ht & He).
    exists (n :: pre), t, post. repeat split; auto.
  - intros [= <-]. exists [], n, rest. repeat split; auto.
Qed.

Lemma check_all_cases (numbers : list str) :
  check_all numbers = inr tt \/ exists e, check_all numbers = inl e.
Proof. destruct (check_all numbers) as [e|[]]; eauto. Qed.

End Validation.

(** ** Closure: every step keeps a string over the seven symbols *)

Section Closure.

Import PyStrFacts.

Lemma table_roman (tbl : list (str * str)) :
  Forall (fun '(old, new) => roman_token new) tbl ->
  forall s, roman_token s -> roman_token (fold_left table_step tbl s).
Proof.
  induction 1 as [|[old new] tbl Hn _ IH]; intros s Hs; [assumption|].
  cbn [fold_left table_step]. apply IH.
  now apply replace_if_in_Forall.
Qed.

Lemma In_roman_digits (x : ascii) :
  In x ROMAN_DIGITS <->
  x = "I"%char \/ x = "V"%char \/ x = "X"%char \/ x = "L"%char \/
  x = "C"%char \/ x = "D"%char \/ x = "M"%char.
Proof.
  unfold ROMAN_DIGITS. cbn [py list_ascii_of_string In].
  split.
  - intros [H|[H|[H|[H|[H|[H|[H|[]]]]]]]]; subst; tauto.
  - intros [H|[H|[H|[H|[H|[H|H]]]]]]; subst; tauto.
Qed.

Lemma roman_py_literal (s : str) :
  forallb (fun x => PyStr.char_in x ROMAN_DIGITS) s = true -> roman_token s.
Proof. apply forallb_roman. Qed.

Lemma replace_subtractive_roman (s : str) :
  roman_token s -> roman_token (replace_subtractive s).
Proof.
  apply (table_roman ADDITIVE_MAP).
  unfold ADDITIVE_MAP.
  do 6 (constructor; [now apply roman_py_literal|]). constructor.
Qed.

Lemma replace_additive_roman (s : str) :
  roman_token s -> roman_token (replace_additive s).
Proof.
  intros H. unfold replace_additive, ADDITIVE_MAP. cbn [fold_left].
  repeat (apply replace_if_in_Forall;
          [now apply roman_py_literal|]).
  exact H.
Qed.

Lemma fold_pass_roman (s : str) : roman_token s -> roman_token (fold_pass s).
Proof.
  apply (table_roman REDUCTION_MAP).
  unfold REDUCTION_MAP.
  do 9 (constructor; [now apply roman_py_literal|]). constructor.
Qed.

Lemma fold_loop_roman (fuel : nat) :
  forall s r, roman_token s -> fold_loop fuel s = Some r -> roman_token r.
Proof.
  induction fuel as [|fuel IH]; intros s r Hs; cbn [fold_loop];
    [discriminate|].
  destruct (PyStr.eqb s (fold_pass s)).
  - intros [= <-]. now apply fold_pass_roman.
  - apply IH. now apply fold_pass_roman.
Qed.

Lemma fold_digits_roman (s : str) :
  roman_token s -> roman_token (fold_digits s).
Proof.
  intros Hs. apply (fold_loop_roman (S (length s)) s); [assumption|].
  apply fold_loop_terminates. lia.
Qed.

Lemma concat_roman (l : list str) :
  Forall roman_token l -> roman_token (concat l).
Proof.
  induction 1; cbn [concat]; [constructor | now apply Forall_app].
Qed.

Lemma map_replace_subtractive_roman (numbers : list str) :
  Forall roman_token numbers ->
  Forall roman_token (map replace_subtractive numbers).
Proof.
  induction 1; cbn [map]; constructor;
    auto using replace_subtractive_roman.
Qed.

End Closure.

(** ** Sorting is counting

    On a string over the seven symbols the sort of [add] never raises and
    returns the symbols in blocks, [M] first: the string of its counts. *)

Section Sorting.

Lemma index_In (s : str) (x : ascii) : In x s -> PyStr.index s x <> None.
Proof.
  induction s as [|c t IH]; cbn [In PyStr.index]; [tauto|].
  intros [->|H]; [now rewrite Ascii.eqb_refl|].
  destruct (Ascii.eqb c x); [discriminate|].
  destruct (PyStr.index t x); [discriminate | now apply IH in H].
Qed.

Lemma decorate_roman (s : str) :
  roman_token s -> decorate s = inr (map keyed s).
Proof.
  induction 1 as [|x t Hx _ IH]; [reflexivity|].
  cbn [decorate map]. unfold keyed at 1, rank.
  apply index_In in Hx.
  destruct (PyStr.index ROMAN_DIGITS x); [|congruence].
  now rewrite IH.
Qed.

Lemma insert_pass (p : nat * ascii) (l1 l2 : list (nat * ascii)) :
  Forall (fun q => fst p < fst q) l1 ->
  insert_desc p (l1 ++ l2) = l1 ++ insert_desc p l2.
Proof.
  induction 1 as [|q l1 Hq _ IH]; [reflexivity|].
  cbn [app insert_desc]. apply Nat.ltb_lt in Hq. now rewrite Hq, IH.
Qed.

Lemma insert_head (p : nat * ascii) (l : list (nat * ascii)) :
  Forall (fun q => fst q <= fst p) l -> insert_desc p l = p :: l.
Proof.
  destruct 1 as [|q l Hq _]; [reflexivity|].
  cbn [insert_desc]. apply Nat.ltb_ge in Hq. now rewrite Hq.
Qed.

Lemma blocks_app (bs1 bs2 : list (ascii * nat)) :
  blocks (bs1 ++ bs2) = blocks bs1 ++ blocks bs2.
Proof. apply flat_map_app. Qed.

Lemma blocks_cons (c : ascii) (n : nat) (bs : list (ascii * nat)) :
  blocks ((c, n) :: bs) = repeat c n ++ blocks bs.
Proof. reflexivity. Qed.

Lemma Forall_repeat (P : ascii -> Prop) (c : ascii) (n : nat) :
  P c -> Forall P (repeat c n).
Proof. intros H. induction n; cbn [repeat]; constructor; auto. Qed.

Lemma Forall_blocks (P : ascii -> Prop) (bs : list (ascii * nat)) :
  Forall (fun b => P (fst b)) bs -> Forall P (blocks bs).
Proof.
  induction 1 as [|[c n] bs Hc _ IH]; [constructor|].
  rewrite blocks_cons. apply Forall_app. split; [|assumption].
  now apply Forall_repeat.
Qed.

(** A decidable side condition on the symbols of a block list becomes a
    [Forall] on the string. *)
Lemma Forall_blocks_b (P : ascii -> Prop) (f : ascii -> bool)
      (bs : list (ascii * nat)) :
  (forall c, f c = true -> P c) ->
  forallb (fun b => f (fst b)) bs = true -> Forall P (blocks bs).
Proof.
  intros Hf H. apply Forall_blocks. apply Forall_forall. intros b Hb.
  rewrite forallb_forall in H. auto.
Qed.

Lemma insert_block (pre post : list (ascii * nat)) (c : ascii) (n : nat) :
  forallb (fun b => rank c <? rank (fst b)) pre = true ->
  forallb (fun b => rank (fst b) <=? rank c) post = true ->
  insert_desc (keyed c) (map keyed (blocks (pre ++ (c, n) :: post))) =
  map keyed (blocks (pre ++ (c, S n) :: post)).
Proof.
  intros Hpre Hpost. rewrite !blocks_app, !map_app, !blocks_cons.
  rewrite insert_pass.
  - f_equal. rewrite insert_head; [reflexivity|].
    apply Forall_map, Forall_app. split.
    + apply Forall_repeat. cbn [keyed fst]. lia.
    + apply (Forall_blocks_b _ (fun a => rank a <=? rank c)); [|assumption].
      intros a H. apply Nat.leb_le in H. exact H.
  - apply Forall_map.
    apply (Forall_blocks_b _ (fun a => rank c <? rank a)); [|assumption].
    intros a H. apply Nat.ltb_lt in H. exact H.
Qed.

Lemma sort_desc_roman (s : str) :
  roman_token s ->
  sort_desc (map keyed s) = map keyed (render (count_of s)).
Proof.
  induction 1 as [|x t Hx _ IH]; [reflexivity|].
  cbn [map sort_desc fold_right]. fold (sort_desc (map keyed t)).
  rewrite IH. unfold render, count_of, count_char.
  cbn [nM nD nC nL nX nV nI].
  set (m := length (filter (Ascii.eqb "M") t)).
  set (d := length (filter (Ascii.eqb "D") t)).
  set (c := length (filter (Ascii.eqb "C") t)).
  set (l := length (filter (Ascii.eqb "L") t)).
  set (k := length (filter (Ascii.eqb "X") t)).
  set (v := length (filter (Ascii.eqb "V") t)).
  set (i := length (filter (Ascii.eqb "I") t)).
  apply In_roman_digits in Hx.
  destruct Hx as [->|[->|[->|[->|[->|[->| ->]]]]]];
    cbn [filter Ascii.eqb Bool.eqb length];
    fold m; fold d; fold c; fold l; fold k; fold v; fold i.
  - exact (insert_block
             [("M", m); ("D", d); ("C", c); ("L", l); ("X", k); ("V", v)]%char
             [] "I" i eq_refl eq_refl).
  - exact (insert_block
             [("M", m); ("D", d); ("C", c); ("L", l); ("X", k)]%char
             [("I", i)]%char "V" v eq_refl eq_refl).
  - exact (insert_block
             [("M", m); ("D", d); ("C", c); ("L", l)]%char
             [("V", v); ("I", i)]%char "X" k eq_refl eq_refl).
  - exact (insert_block
             [("M", m); ("D", d); ("C", c)]%char
             [("X", k); ("V", v); ("I", i)]%char "L" l eq_refl eq_refl).
  - exact (insert_block
             [("M", m); ("D", d)]%char
             [("L", l); ("X", k); ("V", v); ("I", i)]%char
             "C" c eq_refl eq_refl).
  - exact (insert_block
             [("M", m)]%char
             [("C", c); ("L", l); ("X", k); ("V", v); ("I", i)]%char
             "D" d eq_refl eq_refl).
  - exact (insert_block
             []
             [("D", d); ("C", c); ("L", l); ("X", k); ("V", v); ("I", i)]%char
             "M" m eq_refl eq_refl).
Qed.

Lemma map_snd_keyed (s : str) : map snd (map keyed s) = s.
Proof. rewrite map_map. cbn [keyed snd]. apply map_id. Qed.

Lemma sorted_roman (s : str) :
  roman_token s -> sorted_by_index_reverse s = inr (render (count_of s)).
Proof.
  intros H. unfold sorted_by_index_reverse.
  rewrite (decorate_roman s H). cbn [bind ret].
  now rewrite (sort_desc_roman s H), map_snd_keyed.
Qed.

End Sorting.

(** ** Replacement inside a string of blocks *)

Section Blocks.

Import PyStr PyStrFacts.

Lemma startswith_neq (a : ascii) (o : str) (c : ascii) (t : str) :
  c <> a -> startswith (a :: o) (c :: t) = false.
Proof.
  intros N. cbn [startswith].
  destruct (Ascii.eqb a c) eqn:E; [|reflexivity].
  apply Ascii.eqb_eq in E. congruence.
Qed.

Lemma replace_prefix_neq (a : ascii) (o new p s : str) :
  Forall (fun c => c <> a) p ->
  replace (a :: o) new (p ++ s) = p ++ replace (a :: o) new s.
Proof.
  induction 1 as [|c p Hc _ IH]; [reflexivity|].
  cbn [app]. now rewrite replace_cons, startswith_neq, IH.
Qed.

Lemma contains_absent_char (a : ascii) (o w : str) :
  Forall (fun c => c <> a) w -> contains (a :: o) w = false.
Proof.
  induction 1 as [|c w Hc _ IH]; [reflexivity|].
  cbn [contains]. now rewrite startswith_neq, IH.
Qed.

Lemma startswith_short_run (a : ascii) (w : str) :
  Forall (fun c => c <> a) w ->
  forall r k, r < k -> startswith (repeat a k) (repeat a r ++ w) = false.
Proof.
  intros Hw. induction r as [|r IH]; intros [|k] L; try lia.
  - cbn [repeat app]. destruct Hw as [|c w Hc _]; [reflexivity|].
    now apply startswith_neq.
  - cbn [repeat app startswith]. rewrite IH by lia. apply andb_false_r.
Qed.

Lemma contains_short_run (a : ascii) (w : str) (k : nat) :
  Forall (fun c => c <> a) w ->
  forall r, r < k -> contains (repeat a k) (repeat a r ++ w) = false.
Proof.
  intros Hw. induction r as [|r IH]; intros L.
  - destruct k as [|k]; [lia|]. now apply contains_absent_char.
  - cbn [repeat app contains].
    change (a :: repeat a r ++ w) with (repeat a (S r) ++ w).
    rewrite startswith_short_run by assumption. apply IH. lia.
Qed.

(** A run of [q * k + r] copies of [a], [r < k], holds [q] occurrences of
    the pattern [a^k]. *)
Lemma replace_run (a b : ascii) (k : nat) (w : str) :
  Forall (fun c => c <> a) w ->
  forall q r, r < S k ->
    replace (repeat a (S k)) [b] (repeat a (q * S k + r) ++ w) =
    repeat b q ++ repeat a r ++ w.
Proof.
  intros Hw q r L. induction q as [|q IH].
  - cbn [Nat.mul Nat.add repeat app]. apply (replace_absent a (repeat a k)).
    now apply (contains_short_run a w (S k)).
  - replace (S q * S k + r) with (S k + (q * S k + r)) by lia.
    rewrite repeat_app, <- app_assoc.
    change (repeat a (S k)) with (a :: repeat a k) at 1 2.
    rewrite replace_match.
    change (a :: repeat a k) with (repeat a (S k)). now rewrite IH.
Qed.

Lemma blocks_absent_char (a : ascii) (bs : list (ascii * nat)) :
  forallb (fun blk => negb (Ascii.eqb (fst blk) a)) bs = true ->
  Forall (fun c => c <> a) (blocks bs).
Proof.
  apply (Forall_blocks_b _ (fun c => negb (Ascii.eqb c a))).
  intros c H E. subst c. now rewrite Ascii.eqb_refl in H.
Qed.

(** A live entry of the reduction table: [k] copies of [a] become one [b],
    where the [b] block stands just before the [a] block. *)
Lemma carry_step (pre post : list (ascii * nat)) (a b : ascii)
      (na nb k : nat) :
  forallb (fun blk => negb (Ascii.eqb (fst blk) a)) (pre ++ post) = true ->
  Ascii.eqb b a = false ->
  replace_if_in (repeat a (S k)) [b]
                (blocks (pre ++ (b, nb) :: (a, na) :: post)) =
  blocks (pre ++ (b, nb + na / S k) :: (a, na mod S k) :: post).
Proof.
  intros H Hb. rewrite forallb_app, andb_true_iff in H.
  destruct H as [Hpre Hpost].
  apply blocks_absent_char in Hpre, Hpost.
  change (repeat a (S k)) with (a :: repeat a k).
  rewrite replace_if_in_replace.
  change (a :: repeat a k) with (repeat a (S k)).
  rewrite !blocks_app, !blocks_cons.
  change (repeat a (S k)) with (a :: repeat a k).
  rewrite replace_prefix_neq by assumption.
  rewrite replace_prefix_neq.
  2:{ apply Forall_repeat. intros E. subst b.
      now rewrite Ascii.eqb_refl in Hb. }
  change (a :: repeat a k) with (repeat a (S k)).
  rewrite (Nat.div_mod_eq na (S k)) at 1.
  rewrite (Nat.mul_comm (S k)).
  rewrite replace_run; auto.
  - now rewrite repeat_app, <- !app_assoc.
  - apply Nat.mod_upper_bound. discriminate.
Qed.

Lemma contains_aba (a b : ascii) (u w : str) :
  a <> b ->
  Forall (fun c => c <> b) u -> Forall (fun c => c <> a) w ->
  contains [a; b; a] (u ++ w) = false.
Proof.
  intros N Hu Hw. induction Hu as [|c u Hc Hu IH].
  - now apply contains_absent_char.
  - cbn [app contains]. rewrite IH, orb_false_r.
    cbn [startswith]. destruct (Ascii.eqb a c); [cbn [andb]|reflexivity].
    destruct Hu as [|c2 u Hc2 _].
    + destruct Hw as [|c2 w Hc2 Hw]; [reflexivity|]. cbn [app].
      destruct (Ascii.eqb b c2); [cbn [andb]|reflexivity].
      destruct Hw as [|c3 w Hc3 _]; [reflexivity|].
      destruct (Ascii.eqb a c3) eqn:E; [|reflexivity].
      apply Ascii.eqb_eq in E. congruence.
    + cbn [app]. destruct (Ascii.eqb b c2) eqn:E; [|reflexivity].
      apply Ascii.eqb_eq in E. congruence.
Qed.

(** A dead entry: the pattern [a b a] cannot occur where every [b] stands
    after every [a]. *)
Lemma dead_step (pre post : list (ascii * nat)) (a b : ascii) (new : str) :
  Ascii.eqb a b = false ->
  forallb (fun blk => negb (Ascii.eqb (fst blk) b)) pre = true ->
  forallb (fun blk => negb (Ascii.eqb (fst blk) a)) post = true ->
  replace_if_in [a; b; a] new (blocks (pre ++ post)) = blocks (pre ++ post).
Proof.
  intros N Hpre Hpost. apply blocks_absent_char in Hpre, Hpost.
  unfold replace_if_in. rewrite blocks_app, contains_aba; auto.
  intros E. subst b. now rewrite Ascii.eqb_refl in N.
Qed.

End Blocks.

(** ** One pass of [fold_digits] on a sorted string is a carry *)

Section Carry.

Import PyStrFacts.

Variables m d c l x v i : nat.

Lemma pass_IIIII :
  replace_if_in (py "IIIII") (py "V")
    (blocks [("M", m); ("D", d); ("C", c); ("L", l); ("X", x); ("V", v);
             ("I", i)]%char) =
  blocks [("M", m); ("D", d); ("C", c); ("L", l); ("X", x);
          ("V", v + i / 5); ("I", i mod 5)]%char.
Proof.
  exact (carry_step [("M", m); ("D", d); ("C", c); ("L", l); ("X", x)]%char
                    [] "I" "V" i v 4 eq_refl eq_refl).
Qed.

Lemma pass_VIV :
  replace_if_in (py "VIV") (py "IX")
    (blocks [("M", m); ("D", d); ("C", c); ("L", l); ("X", x); ("V", v);
             ("I", i)]%char) =
  blocks [("M", m); ("D", d); ("C", c); ("L", l); ("X", x); ("V", v);
          ("I", i)]%char.
Proof.
  exact (dead_step
           [("M", m); ("D", d); ("C", c); ("L", l); ("X", x); ("V", v)]%char
           [("I", i)]%char "V" "I" (py "IX") eq_refl eq_refl eq_refl).
Qed.

Lemma pass_VV :
  replace_if_in (py "VV") (py "X")
    (blocks [("M", m); ("D", d); ("C", c); ("L", l); ("X", x); ("V", v);
             ("I", i)]%char) =
  blocks [("M", m); ("D", d); ("C", c); ("L", l); ("X", x + v / 2);
          ("V", v mod 2); ("I", i)]%char.
Proof.
  exact (carry_step [("M", m); ("D", d); ("C", c); ("L", l)]%char
                    [("I", i)]%char "V" "X" v x 1 eq_refl eq_refl).
Qed.

Lemma pass_XXXXX :
  replace_if_in (py "XXXXX") (py "L")
    (blocks [("M", m); ("D", d); ("C", c); ("L", l); ("X", x); ("V", v);
             ("I", i)]%char) =
  blocks [("M", m); ("D", d); ("C", c); ("L", l + x / 5); ("X", x mod 5);
          ("V", v); ("I", i)]%char.
Proof.
  exact (carry_step [("M", m); ("D", d); ("C", c)]%char
                    [("V", v); ("I", i)]%char "X" "L" x l 4 eq_refl eq_refl).
Qed.

Lemma pass_LXL :
  replace_if_in (py "LXL") (py "XC")
    (blocks [("M", m); ("D", d); ("C", c); ("L", l); ("X", x); ("V", v);
             ("I", i)]%char) =
  blocks [("M", m); ("D", d); ("C", c); ("L", l); ("X", x); ("V", v);
          ("I", i)]%char.
Proof.
  exact (dead_step
           [("M", m); ("D", d); ("C", c); ("L", l)]%char
           [("X", x); ("V", v); ("I", i)]%char "L" "X" (py "XC")
           eq_refl eq_refl eq_refl).
Qed.

Lemma pass_LL :
  replace_if_in (py "LL") (py "C")
    (blocks [("M", m); ("D", d); ("C", c); ("L", l); ("X", x); ("V", v);
             ("I", i)]%char) =
  blocks [("M", m); ("D", d); ("C", c + l / 2); ("L", l mod 2); ("X", x);
          ("V", v); ("I", i)]%char.
Proof.
  exact (carry_step [("M", m); ("D", d)]%char
                    [("X", x); ("V", v); ("I", i)]%char
                    "L" "C" l c 1 eq_refl eq_refl).
Qed.

Lemma pass_CCCCC :
  replace_if_in (py "CCCCC") (py "D")
    (blocks [("M", m); ("D", d); ("C", c); ("L", l); ("X", x); ("V", v);
             ("I", i)]%char) =
  blocks [("M", m); ("D", d + c / 5); ("C", c mod 5); ("L", l); ("X", x);
          ("V", v); ("I", i)]%char.
Proof.
  exact (carry_step [("M", m)]%char
                    [("L", l); ("X", x); ("V", v); ("I", i)]%char
                    "C" "D" c d 4 eq_refl eq_refl).
Qed.

Lemma pass_DCD :
  replace_if_in (py "DCD") (py "CM")
    (blocks [("M", m); ("D", d); ("C", c); ("L", l); ("X", x); ("V", v);
             ("I", i)]%char) =
  blocks [("M", m); ("D", d); ("C", c); ("L", l); ("X", x); ("V", v);
          ("I", i)]%char.
Proof.
  exact (dead_step
           [("M", m); ("D", d)]%char
           [("C", c); ("L", l); ("X", x); ("V", v); ("I", i)]%char
           "D" "C" (py "CM") eq_refl eq_refl eq_refl).
Qed.

Lemma pass_DD :
  replace_if_in (py "DD") (py "M")
    (blocks [("M", m); ("D", d); ("C", c); ("L", l); ("X", x); ("V", v);
             ("I", i)]%char) =
  blocks [("M", m + d / 2); ("D", d mod 2); ("C", c); ("L", l); ("X", x);
          ("V", v); ("I", i)]%char.
Proof.
  exact (carry_step []
                    [("C", c); ("L", l); ("X", x); ("V", v); ("I", i)]%char
                    "D" "M" d m 1 eq_refl eq_refl).
Qed.

End Carry.

Lemma fold_pass_render (k : counts) : fold_pass (render k) = render (carry k).
Proof.
  destruct k as [m d c l x v i].
  unfold fold_pass, REDUCTION_MAP, render, carry.
  cbn [fold_left nM nD nC nL nX nV nI].
  rewrite pass_IIIII, pass_VIV, pass_VV, pass_XXXXX, pass_LXL, pass_LL,
    pass_CCCCC, pass_DCD, pass_DD.
  reflexivity.
Qed.

(** ** Arithmetic of counts *)

Ltac divmod n k :=
  let q := fresh "q" in
  let r := fresh "r" in
  pose proof (Nat.div_mod_eq n k);
  pose proof (Nat.mod_upper_bound n k ltac:(discriminate));
  set (q := n / k) in *; set (r := n mod k) in *; clearbody q r.

Lemma carry_normal (k : counts) : normal (carry k).
Proof.
  unfold normal, carry. cbn [nD nC nL nX nV nI].
  repeat split; apply Nat.mod_upper_bound; discriminate.
Qed.

Lemma carry_total (k : counts) : total (carry k) = total k.
Proof.
  destruct k as [m d c l x v i]. unfold total, carry.
  cbn [nM nD nC nL nX nV nI].
  divmod i 5. divmod (v + q) 2. divmod (x + q0) 5. divmod (l + q1) 2.
  divmod (c + q2) 5. divmod (d + q3) 2. lia.
Qed.

Lemma normal_total_inj (a b : counts) :
  normal a -> normal b -> total a = total b -> a = b.
Proof.
  destruct a as [m d c l x v i], b as [m' d' c' l' x' v' i'].
  unfold normal, total. cbn [nM nD nC nL nX nV nI].
  intros (? & ? & ? & ? & ? & ?) (? & ? & ? & ? & ? & ?) E.
  assert (i = i' /\ v = v' /\ x = x' /\ l = l' /\ c = c' /\ d = d' /\
          m = m') as (-> & -> & -> & -> & -> & -> & ->) by lia.
  reflexivity.
Qed.

Lemma carry_idempotent (k : counts) : carry (carry k) = carry k.
Proof.
  apply normal_total_inj; auto using carry_normal, carry_total.
Qed.

Lemma total_plus (a b : counts) : total (plus a b) = total a + total b.
Proof. unfold total, plus. cbn [nM nD nC nL nX nV nI]. lia. Qed.

Lemma plus_comm (a b : counts) : plus a b = plus b a.
Proof. unfold plus. f_equal; apply Nat.add_comm. Qed.

Lemma carry_plus_l (a b : counts) :
  carry (plus (carry a) b) = carry (plus a b).
Proof.
  apply normal_total_inj; auto using carry_normal.
  now rewrite !carry_total, !total_plus, carry_total.
Qed.

Lemma carry_plus_r (a b : counts) :
  carry (plus a (carry b)) = carry (plus a b).
Proof.
  apply normal_total_inj; auto using carry_normal.
  now rewrite !carry_total, !total_plus, carry_total.
Qed.

(** ** [fold_digits] on a sorted string *)

Lemma fold_digits_render (k : counts) :
  fold_digits (render k) = render (carry k).
Proof.
  rewrite fold_digits_of_pass; rewrite !fold_pass_render; auto.
  now rewrite carry_idempotent.
Qed.

(** ** Counts of concatenations and of sorted strings *)

Lemma count_char_app (a : ascii) (s t : str) :
  count_char a (s ++ t) = count_char a s + count_char a t.
Proof. unfold count_char. now rewrite filter_app, length_app. Qed.

Lemma count_of_app (s t : str) :
  count_of (s ++ t) = plus (count_of s) (count_of t).
Proof.
  unfold count_of, plus. cbn [nM nD nC nL nX nV nI].
  now rewrite !count_char_app.
Qed.

Lemma count_char_repeat (a c : ascii) (n : nat) :
  count_char a (repeat c n) = if Ascii.eqb a c then n else 0.
Proof.
  unfold count_char. induction n as [|n IH]; cbn [repeat filter].
  - now destruct (Ascii.eqb a c).
  - destruct (Ascii.eqb a c); cbn [length]; auto.
Qed.

Lemma count_of_render (k : counts) : count_of (render k) = k.
Proof.
  destruct k as [m d c l x v i]. unfold count_of, render, blocks.
  cbn [flat_map nM nD nC nL nX nV nI].
  rewrite !count_char_app, !count_char_repeat.
  cbn [Ascii.eqb Bool.eqb count_char filter length].
  f_equal; lia.
Qed.

Lemma render_roman (k : counts) : roman_token (render k).
Proof.
  apply (Forall_blocks_b _ (fun a => PyStr.char_in a ROMAN_DIGITS)).
  - intros a H. now apply char_in_In.
  - reflexivity.
Qed.

(** ** What [add] computes on valid tokens *)

Lemma add_roman (numbers : list str) :
  Forall roman_token numbers ->
  add numbers = inr (replace_additive (render (add_counts numbers))).
Proof.
  intros H. unfold add, add_counts.
  rewrite (proj2 (check_all_ok numbers) H). cbn [bind].
  rewrite sorted_roman.
  - cbn [bind ret]. now rewrite fold_digits_render.
  - now apply concat_roman, map_replace_subtractive_roman.
Qed.

Lemma add_counts_pair (a b : str) :
  add_counts [a; b] =
  carry (plus (count_of (replace_subtractive a))
              (count_of (replace_subtractive b))).
Proof.
  unfold add_counts. cbn [map concat].
  now rewrite app_nil_r, count_of_app.
Qed.

(** ** Expanding a result of [add] gives back the folded string *)

Lemma table_prefix_M (tbl : list (str * str)) (n : nat) :
  Forall (fun '(old, _) =>
            match old with
            | [] => False
            | a :: _ => a <> "M"%char
            end) tbl ->
  forall s, fold_left table_step tbl (repeat "M"%char n ++ s) =
            repeat "M"%char n ++ fold_left table_step tbl s.
Proof.
  induction 1 as [|[old new] tbl Ho _ IH]; intros s; [reflexivity|].
  cbn [fold_left table_step]. destruct old as [|a o]; [contradiction|].
  rewrite !PyStrFacts.replace_if_in_replace.
  rewrite replace_prefix_neq.
  - apply IH.
  - apply Forall_repeat. congruence.
Qed.

Lemma replace_additive_prefix_M (n : nat) (s : str) :
  replace_additive (repeat "M"%char n ++ s) =
  repeat "M"%char n ++ replace_additive s.
Proof.
  apply (table_prefix_M (map (fun '(key, value) => (value, key))
                             ADDITIVE_MAP)).
  repeat constructor; discriminate.
Qed.

Lemma replace_subtractive_prefix_M (n : nat) (s : str) :
  replace_subtractive (repeat "M"%char n ++ s) =
  repeat "M"%char n ++ replace_subtractive s.
Proof.
  apply (table_prefix_M ADDITIVE_MAP).
  repeat constructor; discriminate.
Qed.

Lemma below_seq (f : nat -> bool) (n : nat) :
  forallb f (seq 0 n) = true -> forall k, k < n -> f k = true.
Proof.
  intros H k L. rewrite forallb_forall in H. apply H, in_seq. lia.
Qed.

Lemma expand_compress_below_M :
  forall d c l x v i,
    d < 2 -> c < 5 -> l < 2 -> x < 5 -> v < 2 -> i < 5 ->
    let s := blocks [("D", d); ("C", c); ("L", l); ("X", x); ("V", v);
                     ("I", i)]%char in
    replace_subtractive (replace_additive s) = s.
Proof.
  assert (forallb (fun d => forallb (fun c => forallb (fun l =>
          forallb (fun x => forallb (fun v => forallb (fun i =>
            let s := blocks [("D", d); ("C", c); ("L", l); ("X", x);
                             ("V", v); ("I", i)]%char in
            PyStr.eqb (replace_subtractive (replace_additive s)) s)
          (seq 0 5)) (seq 0 2)) (seq 0 5)) (seq 0 2)) (seq 0 5)) (seq 0 2)
          = true) as H by (vm_compute; reflexivity).
  intros d c l x v i Hd Hc Hl Hx Hv Hi.
  apply below_seq with (k := d) in H; [|assumption].
  apply below_seq with (k := c) in H; [|assumption].
  apply below_seq with (k := l) in H; [|assumption].
  apply below_seq with (k := x) in H; [|assumption].
  apply below_seq with (k := v) in H; [|assumption].
  apply below_seq with (k := i) in H; [|assumption].
  now apply PyStrFacts.eqb_eq in H.
Qed.

Lemma expand_compress_normal (k : counts) :
  normal k -> replace_subtractive (replace_additive (render k)) = render k.
Proof.
  destruct k as [m d c l x v i]. unfold normal, render.
  cbn [nM nD nC nL nX nV nI]. intros (Hd & Hc & Hl & Hx & Hv & Hi).
  rewrite blocks_cons.
  rewrite replace_additive_prefix_M, replace_subtractive_prefix_M.
  f_equal. now apply expand_compress_below_M.
Qed.

Lemma add_counts_normal (numbers : list str) : normal (add_counts numbers).
Proof. apply carry_normal. Qed.

(** The counts of an expanded result of [add] are the counts [add] folded
    to. *)
Lemma count_of_result (numbers : list str) :
  count_of (replace_subtractive
              (replace_additive (render (add_counts numbers)))) =
  add_counts numbers.
Proof.
  rewrite expand_compress_normal by apply add_counts_normal.
  apply count_of_render.
Qed.

Lemma plus_assoc (a b c : counts) : plus (plus a b) c = plus a (plus b c).
Proof.
  unfold plus. cbn [nM nD nC nL nX nV nI].
  f_equal; symmetry; apply Nat.add_assoc.
Qed.

(** ** Strings without a pattern of a table *)

Lemma no_patternb_spec (patterns : list str) (s : str) :
  no_patternb patterns s = true <-> no_pattern patterns s.
Proof.
  unfold no_patternb, no_pattern. rewrite forallb_forall, Forall_forall.
  split; intros H p Hp; specialize (H p Hp);
    destruct (PyStr.contains p s); auto; discriminate.
Qed.

Lemma table_absent (tbl : list (str * str)) (s : str) :
  no_pattern (map fst tbl) s -> fold_left table_step tbl s = s.
Proof.
  induction tbl as [|[old new] tbl IH]; [reflexivity|].
  cbn [map fst]. inversion 1 as [|p ps Hp Hps]; subst.
  cbn [fold_left table_step]. unfold replace_if_in. rewrite Hp. now apply IH.
Qed.

Lemma replace_subtractive_absent (s : str) :
  no_pattern SUBTRACTIVE_PAIRS s -> replace_subtractive s = s.
Proof. apply (table_absent ADDITIVE_MAP). Qed.

Lemma contains_pair_repeat (a b c : ascii) (n : nat) :
  Ascii.eqb a b = false -> PyStr.contains [a; b] (repeat c n) = false.
Proof.
  intros N. induction n as [|n IH]; [reflexivity|].
  cbn [repeat PyStr.contains]. rewrite IH, orb_false_r.
  cbn [PyStr.startswith]. destruct (Ascii.eqb a c) eqn:E; [|reflexivity].
  apply Ascii.eqb_eq in E. subst c. destruct n; cbn [repeat andb]; auto.
  now rewrite Ascii.eqb_sym, N.
Qed.

Lemma repeat_no_subtractive_pair (c : ascii) (n : nat) :
  no_pattern SUBTRACTIVE_PAIRS (repeat c n).
Proof.
  unfold no_pattern, SUBTRACTIVE_PAIRS, ADDITIVE_MAP. cbn [map fst].
  repeat constructor; now apply contains_pair_repeat.
Qed.

Lemma render_repeat (c : ascii) (n : nat) :
  In c ROMAN_DIGITS -> render (count_of (repeat c n)) = repeat c n.
Proof.
  intros H. apply In_roman_digits in H.
  unfold count_of. rewrite !count_char_repeat. unfold render, blocks.
  destruct H as [->|[->|[->|[->|[->|[->| ->]]]]]];
    cbn [Ascii.eqb Bool.eqb nM nD nC nL nX nV nI flat_map repeat app];
    now rewrite ?app_nil_r.
Qed.

(** ** Tidy numerals, by enumeration of 1 to 3999 *)

Lemma tidy_checked :
  forallb (fun n =>
             let N := Tidy.numeral n in
             Nat.eqb (Tidy.value N) n &&
             forallb (fun x => PyStr.char_in x ROMAN_DIGITS) N &&
             PyStr.eqb (replace_additive (replace_subtractive N)) N &&
             no_patternb SUBTRACTIVE_PAIRS (replace_subtractive N))
          (seq 1 3999) = true.
Proof. vm_compute. reflexivity. Qed.

Lemma tidy_facts (n : nat) :
  Tidy.in_range n ->
  Tidy.value (Tidy.numeral n) = n /\
  roman_token (Tidy.numeral n) /\
  replace_additive (replace_subtractive (Tidy.numeral n)) = Tidy.numeral n /\
  no_pattern SUBTRACTIVE_PAIRS (replace_subtractive (Tidy.numeral n)).
Proof.
  intros [L U]. pose proof tidy_checked as H.
  rewrite forallb_forall in H. specialize (H n).
  cbv zeta in H. rewrite !andb_true_iff in H.
  destruct H as [[[V R] E] P]; [apply in_seq; lia|].
  repeat split.
  - now apply Nat.eqb_eq.
  - now apply forallb_roman.
  - now apply PyStrFacts.eqb_eq.
  - now apply no_patternb_spec.
Qed.

(** ** Validation does not see empty tokens *)

Lemma check_all_skip_empty (pre post : list str) :
  check_all (pre ++ [] :: post) = check_all (pre ++ post).
Proof.
  induction pre as [|n pre IH]; [reflexivity|].
  cbn [app check_all]. now rewrite IH.
Qed.

Lemma additive_sum_skip_empty (pre post : list str) :
  concat (map replace_subtractive (pre ++ [] :: post)) =
  concat (map replace_subtractive (pre ++ post)).
Proof. now rewrite !map_app, !concat_app. Qed.

(** ** When [add] raises *)

Lemma add_raise_iff (numbers : list str) (e : exn) :
  add numbers = inl e <-> check_all numbers = inl e.
Proof.
  destruct (check_all numbers) as [e'|[]] eqn:C.
  - unfold add. rewrite C. cbn [bind]. split; intros [= ->]; reflexivity.
  - apply check_all_ok in C. rewrite (add_roman numbers C).
    split; discriminate.
Qed.

Lemma not_roman_token (t : str) :
  ~ roman_token t <-> Exists (fun x => ~ In x ROMAN_DIGITS) t.
Proof.
  split.
  - apply neg_Forall_Exists_neg. intros x.
    apply (in_dec ascii_dec).
  - intros H F. apply Exists_exists in H as [x [Hx N]].
    unfold roman_token in F. rewrite Forall_forall in F. auto.
Qed.

(** * The claims *)

(** C1. The known values of the specification:
    [add('IV','V') == 'IX'], [add('XVII','X','XIII') == 'XL'],
    [add('III','III') == 'VI'] and [add('MCMXC','X') == 'MM']. *)
Theorem add_known_values :
  add [py "IV"; py "V"] = inr (py "IX") /\
  add [py "XVII"; py "X"; py "XIII"] = inr (py "XL") /\
  add [py "III"; py "III"] = inr (py "VI") /\
  add [py "MCMXC"; py "X"] = inr (py "MM").
Proof. repeat split; vm_compute; reflexivity. Qed.

(** C2. [add] raises if and only if some token holds a character outside
    I, V, X, L, C, D, M.  The exception is the one of the validation loop,
    which runs before anything else: it is [InvalidNumeral t] for the first
    token [t] that holds such a character, and no string is returned.
    [add('IIX9')] raises for ['IIX9'], and a token made of the seven symbols
    only passes [check_roman]. *)
Theorem add_invalid_numeral (numbers : list str) :
  ((exists e, add numbers = inl e) <->
   Exists (fun t => Exists (fun x => ~ In x ROMAN_DIGITS) t) numbers) /\
  (forall e, add numbers = inl e <-> check_all numbers = inl e) /\
  (forall e, add numbers = inl e ->
     exists pre t post,
       numbers = pre ++ t :: post /\ Forall roman_token pre /\
       Exists (fun x => ~ In x ROMAN_DIGITS) t /\ e = InvalidNumeral t) /\
  add [py "IIX9"] = inl (InvalidNumeral (py "IIX9")) /\
  (forall s, roman_token s <-> check_roman s = inr tt).
Proof.
  assert (R : forall e, add numbers = inl e ->
     exists pre t post,
       numbers = pre ++ t :: post /\ Forall roman_token pre /\
       Exists (fun x => ~ In x ROMAN_DIGITS) t /\ e = InvalidNumeral t).
  { intros e H. apply add_raise_iff, check_all_raise in H.
    destruct H as (pre & t & post & E & Hp & Ht & He).
    exists pre, t, post. rewrite <- not_roman_token. auto. }
  split; [|split; [|split; [|split]]].
  - split.
    + intros [e H]. destruct (R e H) as (pre & t & post & -> & _ & Ht & _).
      apply Exists_exists. exists t. split; [|assumption].
      apply in_elt.
    + intros H. destruct (check_all_cases numbers) as [C|[e C]].
      * apply check_all_ok in C. apply Exists_exists in H as [t [Hin Ht]].
        rewrite Forall_forall in C. apply not_roman_token in Ht.
        now apply C in Hin.
      * exists e. now apply add_raise_iff.
  - apply add_raise_iff.
  - exact R.
  - reflexivity.
  - intros s. symmetry. apply check_roman_ok.
Qed.

(** C3. Round trip: for every [n] from 1 to 3999 the tidy numeral of [n]
    stands for [n], and compressing its expansion gives it back:
    [replace_additive(replace_subtractive(N)) == N]. *)
Theorem compress_expand_tidy (n : nat) :
  Tidy.in_range n ->
  Tidy.value (Tidy.numeral n) = n /\
  replace_additive (replace_subtractive (Tidy.numeral n)) = Tidy.numeral n.
Proof.
  intros H. destruct (tidy_facts n H) as (V & _ & E & _). auto.
Qed.

Lemma compress_expand_tidy_witness :
  Tidy.in_range 1990 /\
  Tidy.value (Tidy.numeral 1990) = 1990 /\
  replace_additive (replace_subtractive (Tidy.numeral 1990)) =
  Tidy.numeral 1990.
Proof.
  assert (H : Tidy.in_range 1990) by (unfold Tidy.in_range; lia).
  split; [exact H | exact (compress_expand_tidy 1990 H)].
Defined.

(** C5, as the specification states it: fails.  ['CDM'] is a token over the
    seven symbols and [replace_subtractive('CDM') == 'CCCCM'], which holds
    the pair ['CM']. *)
Lemma expand_CDM_keeps_pair :
  ~ (roman_token (py "CDM") ->
     no_pattern SUBTRACTIVE_PAIRS (replace_subtractive (py "CDM"))).
Proof.
  intros H. assert (R : roman_token (py "CDM")).
  { now apply roman_py_literal. }
  apply H, no_patternb_spec in R. discriminate R.
Qed.

(** C5, amended.  For the two supported shapes of input, a tidy numeral of
    1 to 3999 and a token in which no subtractive pair occurs, the result of
    [replace_subtractive] holds none of CM, CD, XC, XL, IX, IV. *)
Theorem expand_no_pair_supported (s : str) :
  (exists n, Tidy.in_range n /\ s = Tidy.numeral n) \/
  no_pattern SUBTRACTIVE_PAIRS s ->
  no_pattern [py "CM"; py "CD"; py "XC"; py "XL"; py "IX"; py "IV"]
             (replace_subtractive s).
Proof.
  intros [[n [H ->]]|H].
  - now apply tidy_facts.
  - rewrite replace_subtractive_absent; assumption.
Qed.

Lemma expand_no_pair_supported_witness :
  ((exists n, Tidy.in_range n /\ py "MCMXC" = Tidy.numeral n) \/
   no_pattern SUBTRACTIVE_PAIRS (py "MCMXC")) /\
  no_pattern [py "CM"; py "CD"; py "XC"; py "XL"; py "IX"; py "IV"]
             (replace_subtractive (py "MCMXC")).
Proof.
  assert (H : (exists n, Tidy.in_range n /\ py "MCMXC" = Tidy.numeral n) \/
              no_pattern SUBTRACTIVE_PAIRS (py "MCMXC")).
  { left. exists 1990. split; [unfold Tidy.in_range; lia | reflexivity]. }
  split; [exact H | exact (expand_no_pair_supported (py "MCMXC") H)].
Defined.

(** C6. The loop of [fold_digits] terminates on every string: with any
    fuel above the length of the string it returns [fold_digits s].  A pass
    leaves the string unchanged or strictly shortens it, and the result is a
    fixpoint in which none of IIIII, VIV, VV, XXXXX, LXL, LL, CCCCC, DCD, DD
    occurs. *)
Theorem fold_digits_terminates (s : str) (extra : nat) :
  fold_loop (S (length s) + extra) s = Some (fold_digits s) /\
  (fold_pass s = s \/ length (fold_pass s) < length s) /\
  fold_pass (fold_digits s) = fold_digits s /\
  no_pattern [py "IIIII"; py "VIV"; py "VV"; py "XXXXX"; py "LXL"; py "LL";
              py "CCCCC"; py "DCD"; py "DD"]
             (fold_digits s).
Proof.
  split; [|split; [|split]].
  - apply fold_loop_terminates. lia.
  - apply fold_pass_shortens.
  - apply fold_digits_fixed.
  - apply fold_pass_fixed, fold_digits_fixed.
Qed.

(** C7. Commutativity: for tokens [a], [b] over the seven symbols
    [add(a, b) == add(b, a)], and both return a string. *)
Theorem add_commutative (a b : str) :
  roman_token a -> roman_token b ->
  add [a; b] = add [b; a] /\ exists r, add [a; b] = inr r.
Proof.
  intros Ha Hb.
  rewrite (add_roman [a; b]), (add_roman [b; a]) by (repeat constructor; auto).
  rewrite !add_counts_pair, plus_comm. eauto.
Qed.

Lemma add_commutative_witness :
  roman_token (py "IV") /\ roman_token (py "V") /\
  add [py "IV"; py "V"] = add [py "V"; py "IV"] /\
  exists r, add [py "IV"; py "V"] = inr r.
Proof.
  assert (Ha : roman_token (py "IV")) by (apply roman_py_literal; reflexivity).
  assert (Hb : roman_token (py "V")) by (apply roman_py_literal; reflexivity).
  split; [exact Ha|]. split; [exact Hb|].
  exact (add_commutative (py "IV") (py "V") Ha Hb).
Defined.

(** C8. Associativity: for tokens [a], [b], [c] over the seven symbols
    [add(add(a,b), c) == add(a, add(b,c))]; both inner sums return a string
    and so do both outer ones.  No bound on the sum is needed. *)
Theorem add_associative (a b c : str) :
  roman_token a -> roman_token b -> roman_token c ->
  exists ab bc r,
    add [a; b] = inr ab /\ add [b; c] = inr bc /\
    add [ab; c] = inr r /\ add [a; bc] = inr r.
Proof.
  intros Ha Hb Hc.
  exists (replace_additive (render (add_counts [a; b]))),
         (replace_additive (render (add_counts [b; c]))),
         (replace_additive
            (render (carry (plus (count_of (replace_subtractive a))
                                 (plus (count_of (replace_subtractive b))
                                       (count_of (replace_subtractive c))))))).
  assert (Hab : roman_token (replace_additive (render (add_counts [a; b]))))
    by apply replace_additive_roman, render_roman.
  assert (Hbc : roman_token (replace_additive (render (add_counts [b; c]))))
    by apply replace_additive_roman, render_roman.
  repeat split.
  - apply add_roman. repeat constructor; auto.
  - apply add_roman. repeat constructor; auto.
  - rewrite add_roman by (repeat constructor; auto).
    rewrite add_counts_pair, count_of_result, add_counts_pair.
    now rewrite carry_plus_l, plus_assoc.
  - rewrite add_roman by (repeat constructor; auto).
    rewrite add_counts_pair, count_of_result, add_counts_pair.
    now rewrite carry_plus_r.
Qed.

Lemma add_associative_witness :
  roman_token (py "XVII") /\ roman_token (py "X") /\
  roman_token (py "XIII") /\
  exists ab bc r,
    add [py "XVII"; py "X"] = inr ab /\ add [py "X"; py "XIII"] = inr bc /\
    add [ab; py "XIII"] = inr r /\ add [py "XVII"; bc] = inr r.
Proof.
  assert (Ha : roman_token (py "XVII"))
    by (apply roman_py_literal; reflexivity).
  assert (Hb : roman_token (py "X")) by (apply roman_py_literal; reflexivity).
  assert (Hc : roman_token (py "XIII"))
    by (apply roman_py_literal; reflexivity).
  split; [exact Ha|]. split; [exact Hb|]. split; [exact Hc|].
  exact (add_associative (py "XVII") (py "X") (py "XIII") Ha Hb Hc).
Defined.

(** C9. Totality and closure: on tokens over the seven symbols, however
    large the sum, [add] raises nothing and returns a string over the seven
    symbols. *)
Theorem add_total_closed (numbers : list str) :
  Forall roman_token numbers ->
  exists r, add numbers = inr r /\ roman_token r.
Proof.
  intros H. exists (replace_additive (render (add_counts numbers))).
  split; [now apply add_roman|].
  apply replace_additive_roman, render_roman.
Qed.

Lemma add_total_closed_witness :
  Forall roman_token [py "MMM"; py "MMM"] /\
  exists r, add [py "MMM"; py "MMM"] = inr r /\ roman_token r.
Proof.
  assert (H : Forall roman_token [py "MMM"; py "MMM"]).
  { constructor; [apply roman_py_literal; reflexivity|].
    constructor; [apply roman_py_literal; reflexivity|]. constructor. }
  split; [exact H | exact (add_total_closed [py "MMM"; py "MMM"] H)].
Defined.

(** C10. The empty token is a zero: it passes validation, [add('') == '']
    and [add() == ''], and an empty token put anywhere among the arguments
    does not change what [add] returns or raises. *)
Theorem empty_token_neutral :
  check_roman [] = inr tt /\
  add [[]] = inr [] /\
  add [] = inr [] /\
  forall pre post, add (pre ++ [] :: post) = add (pre ++ post).
Proof.
  repeat split; try reflexivity.
  intros pre post. unfold add.
  now rewrite check_all_skip_empty, additive_sum_skip_empty.
Qed.

(** ** Further values *)

Example add_MMM_MMM : add [py "MMM"; py "MMM"] = inr (py "MMMMMM").
Proof. reflexivity. Qed.

Example fold_digits_docstring : fold_digits (py "VIIIII") = py "X".
Proof. reflexivity. Qed.

Example replace_subtractive_CDM : replace_subtractive (py "CDM") = py "CCCCM".
Proof. reflexivity. Qed.

Example add_IIV : add [py "IIV"] = inr (py "V").
Proof. reflexivity. Qed.

(** * Further properties of the module *)

(** ** Replacement: weights and growth *)

Section ReplaceMore.

Import PyStr PyStrFacts.

Lemma startswith_split (a : ascii) (o : str) (c : ascii) (t : str) :
  startswith (a :: o) (c :: t) = true ->
  c :: t = (a :: o) ++ skipn (length o) t.
Proof. intros E. apply startswith_true in E. exact E. Qed.

Lemma weight_sum_app (s t : str) :
  weight_sum (s ++ t) = weight_sum s + weight_sum t.
Proof. unfold weight_sum. now rewrite map_app, list_sum_app. Qed.

Lemma replace_weight_sum (a : ascii) (o new : str) :
  weight_sum (a :: o) = weight_sum new ->
  forall s, weight_sum (replace (a :: o) new s) = weight_sum s.
Proof.
  intros Hw s.
  induction s as [s IH] using (induction_ltof1 _ (@length ascii)).
  unfold ltof in IH. destruct s as [|c t]; [reflexivity|].
  rewrite replace_cons. destruct (startswith (a :: o) (c :: t)) eqn:E.
  - apply startswith_split in E.
    rewrite weight_sum_app, IH, <- Hw, <- weight_sum_app, <- E; auto.
    apply (f_equal (@length ascii)) in E. rewrite length_app in E.
    cbn [length] in *. lia.
  - change (c :: replace (a :: o) new t)
      with ([c] ++ replace (a :: o) new t).
    change (c :: t) with ([c] ++ t).
    rewrite !weight_sum_app, IH; auto.
Qed.

Lemma replace_length_ge (a : ascii) (o new : str) :
  length (a :: o) <= length new ->
  forall s, length s <= length (replace (a :: o) new s).
Proof.
  intros Hn s.
  induction s as [s IH] using (induction_ltof1 _ (@length ascii)).
  unfold ltof in IH. destruct s as [|c t]; [auto|].
  rewrite replace_cons. destruct (startswith (a :: o) (c :: t)) eqn:E.
  - apply startswith_split in E.
    apply (f_equal (@length ascii)) in E. rewrite length_app in E.
    rewrite length_app.
    specialize (IH (skipn (length o) t)).
    cbn [length] in *. lia.
  - cbn [length]. specialize (IH t). cbn [length] in IH. lia.
Qed.

Lemma replace_length_gt (a : ascii) (o new : str) :
  length (a :: o) < length new ->
  forall s, contains (a :: o) s = true ->
            length s < length (replace (a :: o) new s).
Proof.
  intros Hn. induction s as [|c t IH]; [discriminate|].
  cbn [contains]. intros H. rewrite replace_cons.
  destruct (startswith (a :: o) (c :: t)) eqn:E.
  - apply startswith_split in E.
    apply (f_equal (@length ascii)) in E. rewrite length_app in E.
    rewrite length_app.
    pose proof (replace_length_ge a o new (Nat.lt_le_incl _ _ Hn)
                  (skipn (length o) t)).
    cbn [length] in *. lia.
  - cbn [orb] in H. specialize (IH H). cbn [length]. lia.
Qed.

Lemma replace_if_in_grows (old new s : str) :
  old <> [] -> length old < length new ->
  (contains old s = false /\ replace_if_in old new s = s) \/
  (contains old s = true /\ length s < length (replace_if_in old new s)).
Proof.
  intros Ho Hn. unfold replace_if_in.
  destruct old as [|a o]; [congruence|].
  destruct (contains (a :: o) s) eqn:E; [right | left]; split; auto.
  now apply replace_length_gt.
Qed.

Lemma table_grow_length (tbl : list (str * str)) :
  growing tbl ->
  forall s, length s <= length (fold_left table_step tbl s).
Proof.
  induction 1 as [|[old new] tbl [Ho Hn] _ IH]; intros s; [auto|].
  cbn [fold_left table_step].
  specialize (IH (replace_if_in old new s)).
  destruct (replace_if_in_grows old new s Ho Hn) as [[_ E]|[_ L]].
  - rewrite E in *. exact IH.
  - lia.
Qed.

Lemma table_grow_same_length (tbl : list (str * str)) :
  growing tbl ->
  forall s, length (fold_left table_step tbl s) = length s ->
            no_pattern (map fst tbl) s.
Proof.
  induction 1 as [|[old new] tbl [Ho Hn] Hs IH]; intros s.
  - constructor.
  - cbn [fold_left table_step map fst]. intros L.
    pose proof (table_grow_length tbl Hs (replace_if_in old new s)) as Le.
    destruct (replace_if_in_grows old new s Ho Hn) as [[C E]|[_ Lt]].
    + rewrite E in *. constructor; [assumption | now apply IH].
    + lia.
Qed.

Lemma table_weight_sum (tbl : list (str * str)) :
  weight_keeping tbl ->
  forall s, weight_sum (fold_left table_step tbl s) = weight_sum s.
Proof.
  induction 1 as [|[old new] tbl [Ho Hw] _ IH]; intros s; [reflexivity|].
  cbn [fold_left table_step]. rewrite IH.
  destruct old as [|a o]; [congruence|].
  rewrite replace_if_in_replace. now apply replace_weight_sum.
Qed.

Lemma REDUCTION_MAP_weight_keeping : weight_keeping REDUCTION_MAP.
Proof.
  unfold weight_keeping, REDUCTION_MAP.
  do 9 (constructor; [split; [discriminate | reflexivity]|]). constructor.
Qed.

Lemma ADDITIVE_MAP_growing : growing ADDITIVE_MAP.
Proof.
  unfold growing, ADDITIVE_MAP.
  do 6 (constructor; [split; [discriminate | cbn; lia]|]). constructor.
Qed.

Lemma SUBTRACTIVE_MAP_shrinking : shrinking SUBTRACTIVE_MAP.
Proof.
  unfold shrinking, SUBTRACTIVE_MAP, ADDITIVE_MAP. cbn [map].
  do 6 (constructor; [split; [discriminate | cbn; lia]|]). constructor.
Qed.

Lemma replace_additive_table (s : str) :
  replace_additive s = fold_left table_step SUBTRACTIVE_MAP s.
Proof. reflexivity. Qed.

(** What one pass keeps, the whole loop keeps. *)
Lemma fold_loop_invariant (R : str -> str -> Prop) :
  (forall s, R s (fold_pass s)) ->
  (forall s t u, R s t -> R t u -> R s u) ->
  forall fuel s r, fold_loop fuel s = Some r -> R s r.
Proof.
  intros Hstep Htrans. induction fuel as [|fuel IH]; intros s r;
    cbn [fold_loop]; [discriminate|].
  destruct (eqb s (fold_pass s)).
  - intros [= <-]. apply Hstep.
  - intros H. apply Htrans with (fold_pass s); auto.
Qed.

Lemma fold_digits_invariant (R : str -> str -> Prop) :
  (forall s, R s (fold_pass s)) ->
  (forall s t u, R s t -> R t u -> R s u) ->
  forall s, R s (fold_digits s).
Proof.
  intros Hstep Htrans s.
  apply (fold_loop_invariant R Hstep Htrans (S (length s))).
  apply fold_loop_terminates. lia.
Qed.

Lemma fold_digits_absent (s : str) :
  no_pattern REDUCIBLE_RUNS s -> fold_digits s = s.
Proof.
  intros H. rewrite fold_digits_unfold.
  assert (E : fold_pass s = s) by now apply (table_absent REDUCTION_MAP).
  now rewrite E, eqb_refl.
Qed.

End ReplaceMore.

(** ** The sort of [add] *)

Section SortMore.

Lemma insert_desc_perm (p : nat * ascii) (l : list (nat * ascii)) :
  Permutation (p :: l) (insert_desc p l).
Proof.
  induction l as [|q l IH]; cbn [insert_desc]; [reflexivity|].
  destruct (fst p <? fst q); [|reflexivity].
  rewrite perm_swap. now apply perm_skip.
Qed.

Lemma sort_desc_perm (l : list (nat * ascii)) : Permutation l (sort_desc l).
Proof.
  induction l as [|p l IH]; [reflexivity|].
  cbn [sort_desc fold_right]. fold (sort_desc l).
  rewrite <- insert_desc_perm. now apply perm_skip.
Qed.

Lemma insert_desc_sorted (p : nat * ascii) (l : list (nat * ascii)) :
  StronglySorted (fun a b => fst b <= fst a) l ->
  StronglySorted (fun a b => fst b <= fst a) (insert_desc p l).
Proof.
  induction 1 as [|q l Hl IH Hq]; cbn [insert_desc].
  - repeat constructor.
  - destruct (fst p <? fst q) eqn:E.
    + apply Nat.ltb_lt in E. constructor; [assumption|].
      apply (Permutation_Forall (insert_desc_perm p l)).
      constructor; [lia | assumption].
    + apply Nat.ltb_ge in E. constructor; [now constructor|].
      constructor; [assumption|].
      apply Forall_impl with (2 := Hq). intros r Hr. lia.
Qed.

Lemma sort_desc_sorted (l : list (nat * ascii)) :
  StronglySorted (fun a b => fst b <= fst a) (sort_desc l).
Proof.
  induction l as [|p l IH]; [constructor|].
  cbn [sort_desc fold_right]. now apply insert_desc_sorted.
Qed.

Lemma keyed_descending (l : list (nat * ascii)) :
  Forall (fun p => fst p = rank (snd p)) l ->
  StronglySorted (fun a b => fst b <= fst a) l ->
  descending (map snd l).
Proof.
  intros Hk. induction 1 as [|p l Hl IH Hp]; [constructor|].
  inversion Hk as [|? ? Kp Kl]; subst. cbn [map].
  constructor; [exact (IH Kl)|].
  apply Forall_map. rewrite Forall_forall in *.
  intros q Hq. rewrite <- Kp, <- (Kl q Hq). auto.
Qed.

Lemma index_Some_In (s : str) (x : ascii) (k : nat) :
  PyStr.index s x = Some k -> In x s.
Proof.
  revert k. induction s as [|c t IH]; intros k; cbn [PyStr.index In];
    [discriminate|].
  destruct (Ascii.eqb c x) eqn:E.
  - apply Ascii.eqb_eq in E. auto.
  - destruct (PyStr.index t x) as [j|]; [|discriminate]. eauto.
Qed.

Lemma decorate_raises (s : str) (e : exn) :
  decorate s = inl e -> e = SubstringNotFound /\ ~ roman_token s.
Proof.
  revert e. induction s as [|x t IH]; intros e; cbn [decorate];
    [discriminate|].
  destruct (PyStr.index ROMAN_DIGITS x) as [k|] eqn:I.
  - destruct (decorate t) as [e'|ks]; cbn [bind ret]; [|discriminate].
    intros [= <-]. destruct (IH e' eq_refl) as [-> N].
    split; [reflexivity|]. intros H. inversion H; auto.
  - intros [= <-]. split; [reflexivity|]. intros H. inversion H; subst.
    now apply (index_In ROMAN_DIGITS x).
Qed.

Lemma decorate_returns (s : str) (ks : list (nat * ascii)) :
  decorate s = inr ks -> roman_token s.
Proof.
  revert ks. induction s as [|x t IH]; intros ks; cbn [decorate].
  - constructor.
  - destruct (PyStr.index ROMAN_DIGITS x) as [k|] eqn:I; [|discriminate].
    destruct (decorate t) as [e'|ks']; cbn [bind ret]; [discriminate|].
    intros _. constructor; [now apply index_Some_In in I | now apply (IH ks')].
Qed.

End SortMore.

(** X1. The sort of [add] raises exactly on a string that holds a character
    outside [ROMAN_DIGITS] (the [ValueError] of [str.index]); on any other
    string it returns a permutation of the string in which the index in
    [ROMAN_DIGITS] never grows from left to right. *)
Theorem sorted_by_index_reverse_spec (s : str) :
  match sorted_by_index_reverse s with
  | inr r => roman_token s /\ Permutation s r /\ descending r
  | inl e => e = SubstringNotFound /\ ~ roman_token s
  end.
Proof.
  unfold sorted_by_index_reverse.
  destruct (decorate s) as [e|ks] eqn:D; cbn [bind ret].
  - now apply decorate_raises.
  - apply decorate_returns in D as R. rewrite (decorate_roman s R) in D.
    injection D as <-. split; [assumption|]. split.
    + rewrite <- (map_snd_keyed s) at 1.
      apply Permutation_map, sort_desc_perm.
    + apply keyed_descending; [|apply sort_desc_sorted].
      apply (Permutation_Forall (sort_desc_perm (map keyed s))).
      apply Forall_map, Forall_forall. reflexivity.
Qed.

(** ** What [add] returns, by weights *)

Section AddValue.

Lemma weight_count (s : str) :
  roman_token s -> total (count_of s) = weight_sum s.
Proof.
  induction 1 as [|x t Hx _ IH]; [reflexivity|].
  change (x :: t) with ([x] ++ t).
  rewrite count_of_app, total_plus, weight_sum_app, IH. f_equal.
  apply In_roman_digits in Hx.
  destruct Hx as [->|[->|[->|[->|[->|[->| ->]]]]]]; reflexivity.
Qed.

Lemma numeral_of_blocks :
  forall d c l x v i,
    d < 2 -> c < 5 -> l < 2 -> x < 5 -> v < 2 -> i < 5 ->
    replace_additive
      (blocks [("D", d); ("C", c); ("L", l); ("X", x); ("V", v);
               ("I", i)]%char) =
    Tidy.numeral (500 * d + 100 * c + 50 * l + 10 * x + 5 * v + i).
Proof.
  assert (forallb (fun d => forallb (fun c => forallb (fun l =>
          forallb (fun x => forallb (fun v => forallb (fun i =>
            PyStr.eqb
              (replace_additive
                 (blocks [("D", d); ("C", c); ("L", l); ("X", x);
                          ("V", v); ("I", i)]%char))
              (Tidy.numeral
                 (500 * d + 100 * c + 50 * l + 10 * x + 5 * v + i)))
          (seq 0 5)) (seq 0 2)) (seq 0 5)) (seq 0 2)) (seq 0 5)) (seq 0 2)
          = true) as H by (vm_compute; reflexivity).
  intros d c l x v i Hd Hc Hl Hx Hv Hi.
  apply below_seq with (k := d) in H; [|assumption].
  apply below_seq with (k := c) in H; [|assumption].
  apply below_seq with (k := l) in H; [|assumption].
  apply below_seq with (k := x) in H; [|assumption].
  apply below_seq with (k := v) in H; [|assumption].
  apply below_seq with (k := i) in H; [|assumption].
  now apply PyStrFacts.eqb_eq in H.
Qed.

Lemma compress_render (k : counts) :
  normal k -> replace_additive (render k) = long_numeral (total k).
Proof.
  destruct k as [m d c l x v i]. unfold normal, render, total, long_numeral.
  cbn [nM nD nC nL nX nV nI]. intros (Hd & Hc & Hl & Hx & Hv & Hi).
  rewrite blocks_cons, replace_additive_prefix_M.
  rewrite numeral_of_blocks by assumption.
  set (t := 500 * d + 100 * c + 50 * l + 10 * x + 5 * v + i).
  assert (Ht : t < 1000) by (unfold t; lia).
  replace (1000 * m + 500 * d + 100 * c + 50 * l + 10 * x + 5 * v + i)
    with (1000 * m + t) by (unfold t; lia).
  rewrite <- (Nat.div_unique (1000 * m + t) 1000 m t Ht eq_refl).
  rewrite <- (Nat.mod_unique (1000 * m + t) 1000 m t Ht eq_refl).
  reflexivity.
Qed.

Lemma add_counts_total (numbers : list str) :
  Forall roman_token numbers ->
  total (add_counts numbers) =
  weight_sum (concat (map replace_subtractive numbers)).
Proof.
  intros H. unfold add_counts. rewrite carry_total. apply weight_count.
  now apply concat_roman, map_replace_subtractive_roman.
Qed.

Lemma long_numeral_in_range (n : nat) :
  n <= 3999 -> long_numeral n = Tidy.numeral n.
Proof.
  assert (forallb (fun n => PyStr.eqb (long_numeral n) (Tidy.numeral n))
                  (seq 0 4000) = true) as H by (vm_compute; reflexivity).
  intros L. rewrite forallb_forall in H.
  apply PyStrFacts.eqb_eq, H, in_seq. lia.
Qed.

Lemma tidy_expansion_checked :
  forallb (fun n =>
             let E := replace_subtractive (Tidy.numeral n) in
             Nat.eqb (weight_sum E) n &&
             match sorted_by_index_reverse E with
             | inr r => PyStr.eqb r E
             | inl _ => false
             end &&
             PyStr.eqb (fold_digits E) E)
          (seq 1 3999) = true.
Proof. vm_compute. reflexivity. Qed.

Lemma tidy_expansion_facts (n : nat) :
  Tidy.in_range n ->
  let E := replace_subtractive (Tidy.numeral n) in
  weight_sum E = n /\ sorted_by_index_reverse E = inr E /\ fold_digits E = E.
Proof.
  intros [L U]. pose proof tidy_expansion_checked as H.
  rewrite forallb_forall in H. specialize (H n).
  cbv zeta in *. rewrite !andb_true_iff in H.
  destruct H as [[W S] F]; [apply in_seq; lia|].
  repeat split.
  - now apply Nat.eqb_eq.
  - destruct (sorted_by_index_reverse _) as [e|r]; [discriminate|].
    apply PyStrFacts.eqb_eq in S. now subst.
  - now apply PyStrFacts.eqb_eq.
Qed.

Lemma weight_sum_tidy_list (ns : list nat) :
  Forall Tidy.in_range ns ->
  weight_sum (concat (map replace_subtractive (map Tidy.numeral ns))) =
  list_sum ns.
Proof.
  induction 1 as [|n ns Hn _ IH]; [reflexivity|].
  cbn [map concat]. rewrite weight_sum_app, IH.
  destruct (tidy_expansion_facts n Hn) as [W _]. now rewrite W.
Qed.

Lemma tidy_list_roman (ns : list nat) :
  Forall Tidy.in_range ns -> Forall roman_token (map Tidy.numeral ns).
Proof.
  induction 1 as [|n ns Hn _ IH]; cbn [map]; constructor; auto.
  now apply tidy_facts.
Qed.

Lemma count_concat_perm (l l' : list str) :
  Permutation l l' -> count_of (concat l) = count_of (concat l').
Proof.
  induction 1 as [|x l l' _ IH|x y l|l l' l'' _ IH1 _ IH2];
    cbn [concat]; rewrite ?count_of_app.
  - reflexivity.
  - now rewrite IH.
  - now rewrite <- !plus_assoc, (plus_comm (count_of y)).
  - congruence.
Qed.

Lemma carry_normal_id (k : counts) : normal k -> carry k = k.
Proof.
  intros H. apply normal_total_inj; auto using carry_normal, carry_total.
Qed.

End AddValue.

Lemma add_long_numeral (numbers : list str) :
  Forall roman_token numbers ->
  add numbers =
  inr (long_numeral
         (weight_sum (concat (map replace_subtractive numbers)))).
Proof.
  intros H. rewrite (add_roman numbers H).
  rewrite compress_render by apply add_counts_normal.
  now rewrite add_counts_total.
Qed.

(** X2. On tokens over the seven symbols [add] returns the numeral of the
    sum of the weights of the expanded tokens: one [M] for each thousand,
    then the tidy numeral of the rest.  Above 3999 the result is therefore a
    run of more than three [M] followed by a tidy numeral below 1000. *)
Theorem add_weight_sum (numbers : list str) :
  Forall roman_token numbers ->
  add numbers =
  inr (long_numeral
         (weight_sum (concat (map replace_subtractive numbers)))).
Proof. apply add_long_numeral. Qed.

Lemma add_weight_sum_witness :
  Forall roman_token [py "MMM"; py "MCMXCIX"] /\
  add [py "MMM"; py "MCMXCIX"] =
  inr (long_numeral
         (weight_sum
            (concat (map replace_subtractive [py "MMM"; py "MCMXCIX"])))).
Proof.
  assert (H : Forall roman_token [py "MMM"; py "MCMXCIX"]).
  { constructor; [apply roman_py_literal; reflexivity|].
    constructor; [apply roman_py_literal; reflexivity|]. constructor. }
  split; [exact H | exact (add_weight_sum [py "MMM"; py "MCMXCIX"] H)].
Defined.

(** X3. Addition is correct on tidy numerals: for numbers from 1 to 3999
    whose sum is at most 3999, [add] of their tidy numerals returns the tidy
    numeral of the sum, for any number of arguments. *)
Theorem add_tidy (ns : list nat) :
  Forall Tidy.in_range ns -> list_sum ns <= 3999 ->
  add (map Tidy.numeral ns) = inr (Tidy.numeral (list_sum ns)).
Proof.
  intros H L. rewrite add_long_numeral by now apply tidy_list_roman.
  rewrite weight_sum_tidy_list by assumption.
  now rewrite long_numeral_in_range.
Qed.

Lemma add_tidy_witness :
  Forall Tidy.in_range [1904; 90; 6] /\ list_sum [1904; 90; 6] <= 3999 /\
  add (map Tidy.numeral [1904; 90; 6]) =
  inr (Tidy.numeral (list_sum [1904; 90; 6])).
Proof.
  assert (H : Forall Tidy.in_range [1904; 90; 6]).
  { do 3 (constructor; [unfold Tidy.in_range; lia|]). constructor. }
  assert (L : list_sum [1904; 90; 6] <= 3999) by (unfold list_sum; cbn [fold_right]; lia).
  split; [exact H|]. split; [exact L|].
  exact (add_tidy [1904; 90; 6] H L).
Defined.

(** ** Reordering and feeding back *)

(** X4. The order of the arguments does not matter: on tokens over the
    seven symbols [add] returns the same for every permutation of its
    arguments. *)
Theorem add_permutation (numbers numbers' : list str) :
  Forall roman_token numbers -> Permutation numbers numbers' ->
  add numbers = add numbers'.
Proof.
  intros H P.
  assert (H' : Forall roman_token numbers')
    by exact (Permutation_Forall P H).
  rewrite (add_roman numbers H), (add_roman numbers' H').
  unfold add_counts.
  now rewrite (count_concat_perm _ _ (Permutation_map replace_subtractive P)).
Qed.

Lemma add_permutation_witness :
  Forall roman_token [py "XVII"; py "X"; py "XIII"] /\
  Permutation [py "XVII"; py "X"; py "XIII"]
              [py "X"; py "XIII"; py "XVII"] /\
  add [py "XVII"; py "X"; py "XIII"] = add [py "X"; py "XIII"; py "XVII"].
Proof.
  assert (H : Forall roman_token [py "XVII"; py "X"; py "XIII"]).
  { do 3 (constructor; [apply roman_py_literal; reflexivity|]).
    constructor. }
  assert (P : Permutation [py "XVII"; py "X"; py "XIII"]
                          [py "X"; py "XIII"; py "XVII"])
    by exact (Permutation_cons_append [py "X"; py "XIII"] (py "XVII")).
  split; [exact H|]. split; [exact P|].
  exact (add_permutation _ _ H P).
Defined.

(** X5. A result of [add] can be fed back in place of the arguments it
    came from: [add] of the result of [add] on the tokens [l1] and of the
    tokens [l2] is [add] of the tokens [l1] and [l2] together, on tokens
    over the seven symbols, and [add(r) == r] for every result [r]. *)
Theorem add_feed_back (l1 l2 : list str) (r : str) :
  Forall roman_token l1 -> Forall roman_token l2 -> add l1 = inr r ->
  add (r :: l2) = add (l1 ++ l2) /\ add [r] = inr r.
Proof.
  intros H1 H2 E. rewrite (add_roman l1 H1) in E. injection E as <-.
  assert (Hr : roman_token (replace_additive (render (add_counts l1))))
    by apply replace_additive_roman, render_roman.
  assert (K : forall l, add_counts
                (replace_additive (render (add_counts l1)) :: l) =
              add_counts (l1 ++ l)).
  { intros l. unfold add_counts at 1 3. cbn [map concat].
    rewrite map_app, concat_app, !count_of_app, count_of_result.
    unfold add_counts. apply carry_plus_l. }
  split.
  - rewrite !add_roman by (try apply Forall_app; auto). now rewrite K.
  - rewrite add_roman by auto. rewrite K, app_nil_r. reflexivity.
Qed.

Lemma add_feed_back_witness :
  Forall roman_token [py "XVII"; py "X"] /\
  Forall roman_token [py "XIII"] /\
  add [py "XVII"; py "X"] = inr (py "XXVII") /\
  add [py "XXVII"; py "XIII"] = add ([py "XVII"; py "X"] ++ [py "XIII"]) /\
  add [py "XXVII"] = inr (py "XXVII").
Proof.
  assert (H1 : Forall roman_token [py "XVII"; py "X"]).
  { do 2 (constructor; [apply roman_py_literal; reflexivity|]).
    constructor. }
  assert (H2 : Forall roman_token [py "XIII"]).
  { constructor; [apply roman_py_literal; reflexivity | constructor]. }
  assert (E : add [py "XVII"; py "X"] = inr (py "XXVII")) by reflexivity.
  split; [exact H1|]. split; [exact H2|]. split; [exact E|].
  exact (add_feed_back [py "XVII"; py "X"] [py "XIII"] (py "XXVII")
                       H1 H2 E).
Defined.

(** ** The shape of a result *)

Lemma small_numeral_checked :
  forallb (fun t =>
             PyStr.eqb (replace_additive (Tidy.numeral t)) (Tidy.numeral t) &&
             PyStr.eqb (fold_pass (Tidy.numeral t)) (Tidy.numeral t))
          (seq 0 1000) = true.
Proof. vm_compute. reflexivity. Qed.

Lemma fold_pass_prefix_M (n : nat) (s : str) :
  fold_pass (repeat "M"%char n ++ s) = repeat "M"%char n ++ fold_pass s.
Proof.
  apply (table_prefix_M REDUCTION_MAP).
  repeat constructor; discriminate.
Qed.

Lemma long_numeral_stable (n : nat) :
  replace_additive (long_numeral n) = long_numeral n /\
  fold_pass (long_numeral n) = long_numeral n.
Proof.
  unfold long_numeral.
  rewrite replace_additive_prefix_M, fold_pass_prefix_M.
  pose proof small_numeral_checked as H. rewrite forallb_forall in H.
  specialize (H (n mod 1000)). rewrite andb_true_iff in H.
  destruct H as [A F].
  - apply in_seq. pose proof (Nat.mod_upper_bound n 1000). lia.
  - apply PyStrFacts.eqb_eq in A, F. now rewrite A, F.
Qed.

(** X6. A result of [add] on tokens over the seven symbols is finished: it
    holds none of the additive runs DCCCC, CCCC, LXXXX, XXXX, VIIII, IIII
    and none of the nine reducible runs, so [replace_additive] and
    [fold_digits] both return it unchanged. *)
Theorem add_result_finished (numbers : list str) (r : str) :
  Forall roman_token numbers -> add numbers = inr r ->
  no_pattern ADDITIVE_RUNS r /\ no_pattern REDUCIBLE_RUNS r /\
  replace_additive r = r /\ fold_digits r = r.
Proof.
  intros H E. rewrite (add_long_numeral numbers H) in E. injection E as <-.
  destruct (long_numeral_stable
              (weight_sum (concat (map replace_subtractive numbers))))
    as [A F].
  assert (N : no_pattern REDUCIBLE_RUNS
                (long_numeral
                   (weight_sum (concat (map replace_subtractive numbers)))))
    by now apply fold_pass_fixed.
  repeat split; auto.
  - apply (table_pass_same_length SUBTRACTIVE_MAP SUBTRACTIVE_MAP_shrinking).
    rewrite <- replace_additive_table. now rewrite A.
  - now apply fold_digits_absent.
Qed.

Lemma add_result_finished_witness :
  Forall roman_token [py "MCMXC"; py "IX"] /\
  add [py "MCMXC"; py "IX"] = inr (py "MCMXCIX") /\
  no_pattern ADDITIVE_RUNS (py "MCMXCIX") /\
  no_pattern REDUCIBLE_RUNS (py "MCMXCIX") /\
  replace_additive (py "MCMXCIX") = py "MCMXCIX" /\
  fold_digits (py "MCMXCIX") = py "MCMXCIX".
Proof.
  assert (H : Forall roman_token [py "MCMXC"; py "IX"]).
  { do 2 (constructor; [apply roman_py_literal; reflexivity|]).
    constructor. }
  assert (E : add [py "MCMXC"; py "IX"] = inr (py "MCMXCIX"))
    by reflexivity.
  split; [exact H|]. split; [exact E|].
  exact (add_result_finished [py "MCMXC"; py "IX"] (py "MCMXCIX") H E).
Defined.

(** X7. Expanding a result of [add] gives back the string [add] folded to:
    the expansion is already sorted and folded, compressing it returns the
    result, and the weights of its symbols add up to those of the expanded
    arguments. *)
Theorem add_result_expansion (numbers : list str) (r : str) :
  Forall roman_token numbers -> add numbers = inr r ->
  sorted_by_index_reverse (replace_subtractive r) =
    inr (replace_subtractive r) /\
  fold_digits (replace_subtractive r) = replace_subtractive r /\
  replace_additive (replace_subtractive r) = r /\
  weight_sum (replace_subtractive r) =
    weight_sum (concat (map replace_subtractive numbers)).
Proof.
  intros H E. rewrite (add_roman numbers H) in E. injection E as <-.
  pose proof (add_counts_normal numbers) as N.
  rewrite (expand_compress_normal _ N).
  repeat split.
  - rewrite sorted_roman by apply render_roman.
    now rewrite count_of_render.
  - now rewrite fold_digits_render, carry_normal_id.
  - rewrite <- weight_count by apply render_roman.
    rewrite count_of_render. now apply add_counts_total.
Qed.

Lemma add_result_expansion_witness :
  Forall roman_token [py "MCMXC"; py "IX"] /\
  add [py "MCMXC"; py "IX"] = inr (py "MCMXCIX") /\
  sorted_by_index_reverse (replace_subtractive (py "MCMXCIX")) =
    inr (replace_subtractive (py "MCMXCIX")) /\
  fold_digits (replace_subtractive (py "MCMXCIX")) =
    replace_subtractive (py "MCMXCIX") /\
  replace_additive (replace_subtractive (py "MCMXCIX")) = py "MCMXCIX" /\
  weight_sum (replace_subtractive (py "MCMXCIX")) =
    weight_sum (concat (map replace_subtractive [py "MCMXC"; py "IX"])).
Proof.
  assert (H : Forall roman_token [py "MCMXC"; py "IX"]).
  { do 2 (constructor; [apply roman_py_literal; reflexivity|]).
    constructor. }
  assert (E : add [py "MCMXC"; py "IX"] = inr (py "MCMXCIX"))
    by reflexivity.
  split; [exact H|]. split; [exact E|].
  exact (add_result_expansion [py "MCMXC"; py "IX"] (py "MCMXCIX") H E).
Defined.

(** ** [fold_digits] on any string *)

(** X8. On every string, whatever its characters and their order,
    [fold_digits] keeps the sum of the weights of the symbols and never
    returns a longer string. *)
Theorem fold_digits_keeps_weight (s : str) :
  weight_sum (fold_digits s) = weight_sum s /\
  length (fold_digits s) <= length s.
Proof.
  split.
  - apply (fold_digits_invariant (fun a b => weight_sum b = weight_sum a)).
    + intros t. apply (table_weight_sum _ REDUCTION_MAP_weight_keeping).
    + intros a b c Hab Hbc. now rewrite Hbc.
  - apply (fold_digits_invariant (fun a b => length b <= length a)).
    + apply fold_pass_length.
    + intros a b c Hab Hbc. lia.
Qed.

(** X9. [fold_digits] returns a string unchanged exactly when none of the
    nine reducible runs occurs in it, and folding twice is folding once. *)
Theorem fold_digits_stable (s : str) :
  (fold_digits s = s <-> no_pattern REDUCIBLE_RUNS s) /\
  fold_digits (fold_digits s) = fold_digits s.
Proof.
  split; [split|].
  - intros E. apply fold_pass_fixed. rewrite <- E at 1.
    rewrite fold_digits_fixed. exact E.
  - apply fold_digits_absent.
  - apply fold_digits_absent, fold_pass_fixed, fold_digits_fixed.
Qed.

(** ** The two table loops on any string *)

(** X10. [replace_additive] never returns a longer string, and returns its
    argument unchanged exactly when none of DCCCC, CCCC, LXXXX, XXXX, VIIII,
    IIII occurs in it. *)
Theorem replace_additive_unchanged (s : str) :
  length (replace_additive s) <= length s /\
  (replace_additive s = s <-> no_pattern ADDITIVE_RUNS s).
Proof.
  rewrite replace_additive_table. split; [|split].
  - apply (table_pass_length _ SUBTRACTIVE_MAP_shrinking).
  - intros E.
    apply (table_pass_same_length _ SUBTRACTIVE_MAP_shrinking).
    now rewrite E.
  - apply (table_absent SUBTRACTIVE_MAP).
Qed.

(** X11. [replace_subtractive] never returns a shorter string, and returns
    its argument unchanged exactly when none of CM, CD, XC, XL, IX, IV
    occurs in it. *)
Theorem replace_subtractive_unchanged (s : str) :
  length s <= length (replace_subtractive s) /\
  (replace_subtractive s = s <-> no_pattern SUBTRACTIVE_PAIRS s).
Proof.
  split; [|split].
  - apply (table_grow_length _ ADDITIVE_MAP_growing).
  - intros E. apply (table_grow_same_length _ ADDITIVE_MAP_growing).
    change (length (replace_subtractive s) = length s). now rewrite E.
  - apply replace_subtractive_absent.
Qed.

(** ** Tidy numerals through the pipeline *)

(** X12. The expansion of the tidy numeral of [n], 1 to 3999, is a string
    whose weights add up to [n] and which the sort and [fold_digits] leave
    unchanged; [add] of the numeral alone returns the numeral. *)
Theorem tidy_expansion (n : nat) :
  Tidy.in_range n ->
  weight_sum (replace_subtractive (Tidy.numeral n)) = n /\
  sorted_by_index_reverse (replace_subtractive (Tidy.numeral n)) =
    inr (replace_subtractive (Tidy.numeral n)) /\
  fold_digits (replace_subtractive (Tidy.numeral n)) =
    replace_subtractive (Tidy.numeral n) /\
  add [Tidy.numeral n] = inr (Tidy.numeral n).
Proof.
  intros H. destruct (tidy_expansion_facts n H) as (W & S & F).
  repeat split; auto.
  unfold add. destruct (tidy_facts n H) as (_ & R & E & _).
  rewrite (proj2 (check_all_ok [Tidy.numeral n])) by (repeat constructor; auto).
  cbn [bind map concat]. rewrite app_nil_r, S. cbn [bind ret].
  now rewrite F, E.
Qed.

Lemma tidy_expansion_witness :
  Tidy.in_range 1954 /\
  weight_sum (replace_subtractive (Tidy.numeral 1954)) = 1954 /\
  sorted_by_index_reverse (replace_subtractive (Tidy.numeral 1954)) =
    inr (replace_subtractive (Tidy.numeral 1954)) /\
  fold_digits (replace_subtractive (Tidy.numeral 1954)) =
    replace_subtractive (Tidy.numeral 1954) /\
  add [Tidy.numeral 1954] = inr (Tidy.numeral 1954).
Proof.
  assert (H : Tidy.in_range 1954) by (unfold Tidy.in_range; lia).
  split; [exact H | exact (tidy_expansion 1954 H)].
Defined.

(** ** The command line *)

Lemma add_raises_iff (numbers : list str) :
  (exists e, add numbers = inl e) <-> ~ Forall roman_token numbers.
Proof.
  rewrite <- check_all_ok. split.
  - intros [e E] C. apply add_raise_iff in E. congruence.
  - intros N. destruct (check_all_cases numbers) as [C|[e C]];
      [contradiction|].
    exists e. now apply add_raise_iff.
Qed.

(** X13. [main] raises exactly when it has two arguments or more and one of
    them holds a character outside the seven symbols, with the exception of
    [add].  With no argument or one it prints the usage line, whatever the
    argument: a single token is neither validated nor echoed. *)
Theorem main_raises_iff (args : list str) :
  ((exists e, main args = inl e) <->
   2 <= length args /\ ~ Forall roman_token args) /\
  (forall e, main args = inl e -> add args = inl e) /\
  (length args <= 1 -> main args = inr (print USAGE)).
Proof.
  unfold main. destruct (length args <=? 1) eqn:L.
  - apply Nat.leb_le in L. split; [split|split].
    + intros [e E]. discriminate.
    + intros [L2 _]. lia.
    + discriminate.
    + reflexivity.
  - apply Nat.leb_gt in L.
    assert (R : forall e, (r <- add args ;; ret (print r)) = inl e ->
                          add args = inl e).
    { intros e E. destruct (add args); [now injection E as -> | discriminate]. }
    split; [split|split].
    + intros [e E]. split; [lia|]. apply add_raises_iff. eauto.
    + intros [_ N]. apply add_raises_iff in N as [e E].
      exists e. now rewrite E.
    + exact R.
    + lia.
Qed.

(** X14. Given the tidy numerals of two or more numbers from 1 to 3999
    whose sum is at most 3999, [main] prints the tidy numeral of the sum and
    a newline. *)
Theorem main_tidy (ns : list nat) :
  2 <= length ns -> Forall Tidy.in_range ns -> list_sum ns <= 3999 ->
  main (map Tidy.numeral ns) = inr (Tidy.numeral (list_sum ns) ++ [newline]).
Proof.
  intros L H U. unfold main. rewrite length_map.
  destruct (length ns <=? 1) eqn:E; [apply Nat.leb_le in E; lia|].
  rewrite (add_long_numeral _ (tidy_list_roman ns H)).
  rewrite weight_sum_tidy_list by assumption.
  rewrite long_numeral_in_range by assumption. reflexivity.
Qed.

Lemma main_tidy_witness :
  2 <= length [4; 5] /\ Forall Tidy.in_range [4; 5] /\
  list_sum [4; 5] <= 3999 /\
  main (map Tidy.numeral [4; 5]) =
  inr (Tidy.numeral (list_sum [4; 5]) ++ [newline]).
Proof.
  assert (L : 2 <= length [4; 5]) by (cbn [length]; lia).
  assert (H : Forall Tidy.in_range [4; 5]).
  { do 2 (constructor; [unfold Tidy.in_range; lia|]). constructor. }
  assert (U : list_sum [4; 5] <= 3999)
    by (unfold list_sum; cbn [fold_right]; lia).
  split; [exact L|]. split; [exact H|]. split; [exact U|].
  exact (main_tidy [4; 5] L H U).
Defined.

Example main_one_bad_token : main [py "IIX9"] = inr (print USAGE).
Proof. reflexivity. Qed.

Example main_IV_V : main [py "IV"; py "V"] = inr (py "IX" ++ [newline]).
Proof. reflexivity. Qed.

(** ** The empty result *)

Section EmptyResult.

Lemma weight_sum_zero (s : str) :
  roman_token s -> weight_sum s = 0 -> s = [].
Proof.
  destruct 1 as [|x t Hx _]; [reflexivity|].
  change (x :: t) with ([x] ++ t). rewrite weight_sum_app.
  apply In_roman_digits in Hx.
  destruct Hx as [->|[->|[->|[->|[->|[->| ->]]]]]];
    cbv [weight_sum map list_sum fold_right Tidy.weight Ascii.eqb Bool.eqb];
    lia.
Qed.

Lemma numeral_not_empty (t : nat) :
  1 <= t < 1000 -> Tidy.numeral t <> [].
Proof.
  assert (forallb (fun t => negb (PyStr.eqb (Tidy.numeral t) []))
                  (seq 1 999) = true) as H by (vm_compute; reflexivity).
  intros L E. rewrite forallb_forall in H. specialize (H t).
  rewrite E in H. discriminate H. apply in_seq. lia.
Qed.

Lemma long_numeral_nil (n : nat) : long_numeral n = [] -> n = 0.
Proof.
  unfold long_numeral. intros E. apply app_eq_nil in E as [M N].
  pose proof (Nat.div_mod_eq n 1000) as D.
  pose proof (Nat.mod_upper_bound n 1000 ltac:(discriminate)) as U.
  destruct (n / 1000) as [|q]; [|discriminate M].
  destruct (Nat.eq_dec (n mod 1000) 0) as [Z|Z]; [lia|].
  exfalso. apply (numeral_not_empty (n mod 1000)); [lia | exact N].
Qed.

Lemma expansions_empty (numbers : list str) :
  concat (map replace_subtractive numbers) = [] ->
  Forall (fun t => t = []) numbers.
Proof.
  induction numbers as [|t rest IH]; cbn [map concat]; [constructor|].
  intros E. apply app_eq_nil in E as [Et Er]. constructor; [|auto].
  pose proof (table_grow_length _ ADDITIVE_MAP_growing t) as L.
  change (length t <= length (replace_subtractive t)) in L.
  rewrite Et in L. destruct t; [reflexivity | cbn [length] in L; lia].
Qed.

Lemma empty_expansions (numbers : list str) :
  Forall (fun t => t = []) numbers ->
  concat (map replace_subtractive numbers) = [].
Proof.
  induction 1 as [|t rest -> _ IH]; [reflexivity|].
  cbn [map concat]. now rewrite IH.
Qed.

End EmptyResult.

(** X15. On tokens over the seven symbols [add] returns the empty string
    exactly when every argument is the empty string: nothing that holds a
    symbol adds up to nothing. *)
Theorem add_empty_result (numbers : list str) :
  Forall roman_token numbers ->
  (add numbers = inr [] <-> Forall (fun t => t = []) numbers).
Proof.
  intros H. rewrite (add_long_numeral numbers H). split.
  - intros [= E]. apply long_numeral_nil in E.
    apply expansions_empty, weight_sum_zero; [|exact E].
    now apply concat_roman, map_replace_subtractive_roman.
  - intros E. now rewrite (empty_expansions numbers E).
Qed.

Lemma add_empty_result_witness :
  Forall roman_token [[]; py "I"] /\
  (add [[]; py "I"] = inr [] <-> Forall (fun t => t = []) [[]; py "I"]).
Proof.
  assert (H : Forall roman_token [[]; py "I"]).
  { do 2 (constructor; [apply roman_py_literal; reflexivity|]).
    constructor. }
  split; [exact H | exact (add_empty_result [[]; py "I"] H)].
Defined.

(** ** Relaxed input *)

Lemma map_replace_subtractive_absent (numbers : list str) :
  Forall (no_pattern SUBTRACTIVE_PAIRS) numbers ->
  map replace_subtractive numbers = numbers.
Proof.
  induction 1 as [|t rest Ht _ IH]; [reflexivity|].
  cbn [map]. now rewrite IH, (replace_subtractive_absent t Ht).
Qed.

(** C4. Relaxed input: [add('IIII','I') == 'V'] and
    [add('XXXXXX') == 'LX'].  A token in which no subtractive pair occurs,
    such as one that repeats a symbol, passes through [replace_subtractive]
    unchanged.  For any number of such tokens over the seven symbols the
    sort gathers the symbols of all of them in blocks, [fold_digits] carries
    the blocks to the string of the carried counts, in which no count is
    left to carry, and [add] returns the compression of that string: the
    numeral of the sum of the weights of the symbols given. *)
Theorem relaxed_input :
  add [py "IIII"; py "I"] = inr (py "V") /\
  add [py "XXXXXX"] = inr (py "LX") /\
  (forall c n, replace_subtractive (repeat c n) = repeat c n) /\
  (forall s, no_pattern SUBTRACTIVE_PAIRS s -> replace_subtractive s = s) /\
  (forall numbers,
     Forall roman_token numbers ->
     Forall (no_pattern SUBTRACTIVE_PAIRS) numbers ->
     map replace_subtractive numbers = numbers /\
     sorted_by_index_reverse (concat numbers) =
       inr (render (count_of (concat numbers))) /\
     fold_digits (render (count_of (concat numbers))) =
       render (carry (count_of (concat numbers))) /\
     normal (carry (count_of (concat numbers))) /\
     no_pattern REDUCIBLE_RUNS (render (carry (count_of (concat numbers)))) /\
     add numbers =
       inr (replace_additive (render (carry (count_of (concat numbers))))) /\
     add numbers = inr (long_numeral (weight_sum (concat numbers)))) /\
  Forall (fun c => forall n,
            fold_digits (repeat c n) =
            render (carry (count_of (repeat c n))) /\
            normal (carry (count_of (repeat c n))) /\
            add [repeat c n] =
            inr (replace_additive (fold_digits (repeat c n))))
         ROMAN_DIGITS.
Proof.
  assert (U : forall c n, replace_subtractive (repeat c n) = repeat c n).
  { intros c n. apply replace_subtractive_absent.
    apply repeat_no_subtractive_pair. }
  split; [reflexivity|]. split; [reflexivity|]. split; [exact U|].
  split; [exact replace_subtractive_absent|]. split.
  - intros numbers H P.
    pose proof (map_replace_subtractive_absent numbers P) as M.
    pose proof (fold_digits_render (count_of (concat numbers))) as F.
    split; [exact M|]. split; [apply sorted_roman, concat_roman, H|].
    split; [exact F|]. split; [apply carry_normal|]. split; [|split].
    + apply fold_pass_fixed. rewrite <- F. apply fold_digits_fixed.
    + rewrite (add_roman numbers H). unfold add_counts. now rewrite M.
    + rewrite (add_long_numeral numbers H). now rewrite M.
  - apply Forall_forall. intros c Hc n.
    assert (F : fold_digits (repeat c n) =
                render (carry (count_of (repeat c n)))).
    { rewrite <- (render_repeat c n Hc) at 1. apply fold_digits_render. }
    split; [exact F|]. split; [apply carry_normal|].
    rewrite add_roman.
    + unfold add_counts. cbn [map concat]. now rewrite app_nil_r, U, F.
    + constructor; [|constructor]. now apply Forall_repeat.
Qed.

Example add_IIII_XXXX : add [py "IIII"; py "XXXX"] = inr (py "XLIV").
Proof. reflexivity. Qed.

Example add_XIIII_XIIII : add [py "XIIII"; py "XIIII"] = inr (py "XXVIII").
Proof. reflexivity. Qed.

Lemma relaxed_input_witness :
  Forall roman_token [py "XIIII"; py "XXXXXX"] /\
  Forall (no_pattern SUBTRACTIVE_PAIRS) [py "XIIII"; py "XXXXXX"] /\
  add [py "XIIII"; py "XXXXXX"] =
  inr (long_numeral (weight_sum (concat [py "XIIII"; py "XXXXXX"]))).
Proof.
  assert (H : Forall roman_token [py "XIIII"; py "XXXXXX"]).
  { do 2 (constructor; [apply roman_py_literal; reflexivity|]).
    constructor. }
  assert (P : Forall (no_pattern SUBTRACTIVE_PAIRS)
                     [py "XIIII"; py "XXXXXX"]).
  { do 2 (constructor; [apply no_patternb_spec; reflexivity|]).
    constructor. }
  split; [exact H|]. split; [exact P|].
  destruct relaxed_input as (_ & _ & _ & _ & G & _).
  destruct (G [py "XIIII"; py "XXXXXX"] H P) as (_ & _ & _ & _ & _ & _ & E).
  exact E.
Defined.
